(** * A metronome audio engine: bar buffer, playback cursors and beat ticks

    Shallow embedding of [windows/metronome.cpp].  The engine keeps one bar of
    16-bit PCM samples, slices one beat per fragment for the wave-out device,
    and counts beats in the device's completion callback.

    Integers of the source are [Z]; the places where a C++ [int] would
    overflow, a cast is out of range or a pointer leaves its array are
    explicit and end the run ([Crash]).  Operations thread the engine state
    and may throw, so they live in a small state-and-exception monad. *)

From Stdlib Require Import ZArith QArith Qreduction Lia Bool String.
From Stdlib.Strings Require Import Byte.
From stdpp Require Import base list pretty.

Local Open Scope Z_scope.

(** ** IEEE binary64 arithmetic

    The beat length is computed in [double] and cast back to [int]; the
    volume is a [double].  A finite double is the rational it denotes.  The
    two zeros are not distinguished: the only divisors the engine uses come
    from [int] conversions, which give [+0]. *)
Module Double.
Inductive double : Type :=
| DFin (q : Q)
| DInf (negative : bool)
| DNaN.

(** Nearest integer to [n / d] for [0 <= n], [0 < d]; ties go to the even
    neighbour. *)
Definition rne (n d : Z) : Z :=
  let q := n / d in
  let r := n mod d in
  if 2 * r <? d then q
  else if d <? 2 * r then q + 1
  else if Z.even q then q else q + 1.

(** [d * 2^l <= n], for an exponent [l] of either sign. *)
Definition binade_le (d l n : Z) : bool :=
  if 0 <=? l then d * 2 ^ l <=? n else d <=? n * 2 ^ (- l).

(** The binary exponent of [n / d]: the base-2 logarithm of the quotient,
    rounded down, found from those of [n] and [d]. *)
Definition binade (n d : Z) : Z :=
  let l := Z.log2 n - Z.log2 d in
  if binade_le d l n then l else l - 1.

(** Exponent of the last place of a 53-bit significand; subnormal numbers
    stop at [2^-1074]. *)
Definition ulp_exp (n d : Z) : Z := Z.max (binade n d - 52) (-1074).

(** The rational [m * 2^e]. *)
Definition dyadic (m e : Z) : Q :=
  if 0 <=? e then inject_Z (m * 2 ^ e) else Qmake m (Z.to_pos (2 ^ (- e))).

(** Round-to-nearest-even of a positive quotient [n / d]; values past the
    largest finite double become infinite. *)
Definition round_pos (n d : Z) : double :=
  let e := ulp_exp n d in
  let m := if 0 <=? e then rne n (d * 2 ^ e) else rne (n * 2 ^ (- e)) d in
  if (0 <=? e) && (2 ^ 1024 <=? m * 2 ^ e)
  then DInf false else DFin (dyadic m e).

Definition dneg (x : double) : double :=
  match x with
  | DFin q => DFin (Qopp q)
  | DInf s => DInf (negb s)
  | DNaN => DNaN
  end.

(** Rounding of an exact result to binary64. *)
Definition round64 (q : Q) : double :=
  let r := Qred q in
  match Qnum r with
  | Z0 => DFin 0%Q
  | Zpos n => round_pos (Zpos n) (Zpos (Qden r))
  | Zneg n => dneg (round_pos (Zpos n) (Zpos (Qden r)))
  end.

Definition Qneg_bool (q : Q) : bool := Qnum q <? 0.
Definition Qzero_bool (q : Q) : bool := Qnum q =? 0.

(** Conversion of an [int] operand. *)
Definition of_int (z : Z) : double := round64 (inject_Z z).

Definition dmul (x y : double) : double :=
  match x, y with
  | DNaN, _ | _, DNaN => DNaN
  | DFin a, DFin b => round64 (a * b)%Q
  | DInf s, DFin b | DFin b, DInf s =>
      if Qzero_bool b then DNaN else DInf (xorb s (Qneg_bool b))
  | DInf s, DInf t => DInf (xorb s t)
  end.

Definition ddiv (x y : double) : double :=
  match x, y with
  | DNaN, _ | _, DNaN => DNaN
  | DFin a, DFin b =>
      if Qzero_bool b
      then (if Qzero_bool a then DNaN else DInf (Qneg_bool a))
      else round64 (a / b)%Q
  | DFin _, DInf _ => DFin 0%Q
  | DInf s, DFin b => DInf (xorb s (Qneg_bool b))
  | DInf _, DInf _ => DNaN
  end.

(** [x < y]; every comparison with a NaN is false. *)
Definition dlt (x y : double) : bool :=
  match x, y with
  | DNaN, _ | _, DNaN => false
  | DFin a, DFin b => negb (Qle_bool b a)
  | DFin _, DInf s => negb s
  | DInf s, DFin _ => s
  | DInf s, DInf t => s && negb t
  end.

(** Truncation toward zero, as a cast to an integer type does. *)
Definition trunc (q : Q) : Z := Z.quot (Qnum q) (Zpos (Qden q)).

Definition INT_MIN : Z := - 2 ^ 31.
Definition INT_MAX : Z := 2 ^ 31 - 1.

(** [static_cast<int>]: undefined ([None]) when the truncated value does
    not fit or the operand is not finite. *)
Definition to_int (x : double) : option Z :=
  match x with
  | DFin q =>
      let t := trunc q in
      if (INT_MIN <=? t) && (t <=? INT_MAX) then Some t else None
  | _ => None
  end.

(** [static_cast<DWORD>], a 32-bit unsigned integer. *)
Definition to_dword (x : double) : option Z :=
  match x with
  | DFin q =>
      let t := trunc q in
      if (0 <=? t) && (t <? 2 ^ 32) then Some t else None
  | _ => None
  end.

End Double.


Import Double.

(** ** Sample conversion *)

Inductive exn : Type :=
| invalid_argument (what : string)
| runtime_error (what : string)
| length_error.

(** The 16-bit sample stored in two bytes, low byte first (the target is
    little-endian and [memcpy] keeps the byte order), read as a signed
    two's-complement [int16_t]. *)
Definition sample_of_bytes (lo hi : byte) : Z :=
  let u := Z.of_N (Byte.to_N lo) + 256 * Z.of_N (Byte.to_N hi) in
  if u <? 32768 then u else u - 65536.

(** [std::memcpy] of the bytes into a vector of [size / 2] samples. *)
Fixpoint memcpy_shorts (bytes : list byte) : list Z :=
  match bytes with
  | lo :: hi :: rest => sample_of_bytes lo hi :: memcpy_shorts rest
  | _ => []
  end.

(** [Metronome::byteArrayToShortArray] (lines 172-182). *)
Definition byteArrayToShortArray (byteArray : list byte) : exn + list Z :=
  if decide (byteArray = [] \/ (length byteArray mod 2 <> 0)%nat)
  then inl (invalid_argument "Invalid byte array length for PCM_16BIT")
  else inr (memcpy_shorts byteArray).

(** The inverse copy, samples back to bytes, used to state the round trip. *)
Definition byte_of_Z (z : Z) : byte :=
  match Byte.of_N (Z.to_N (z mod 256)) with
  | Some b => b
  | None => Byte.x00
  end.

Definition bytes_of_sample (v : Z) : list byte :=
  let u := v mod 65536 in [byte_of_Z u; byte_of_Z (u / 256)].

Definition shortArrayToByteArray (shorts : list Z) : list byte :=
  concat (map bytes_of_sample shorts).

(** ** Engine state *)

(** Calls made on the wave-out device that change what it plays. *)
Inductive wave_call : Type :=
| waveOutRestart
| waveOutBreakLoop
| waveOutReset
| waveOutSetVolume (dwVolume : Z)
| waveOutWrite (fragment : list Z)
| waveOutClose.

(** Modelled from the spec: the member declarations of [metronome.h], which
    is not part of the sources.  The fields are those the member functions
    use; the cursors are unbounded counters and every counter starts at 0,
    the engine starts stopped with no tick sink and no device handle.
    [hWaveOut] and [eventTickSink] record whether the handle and the sink
    pointer are non-null, [metronomeThread] whether the producer thread is
    joinable.  [waveOut] and [tickEvents] are not members: they log the calls
    received by the device and the beat indices delivered to the sink. *)
Record Metronome : Type := {
  mainSound : list Z;
  accentedSound : list Z;
  audioBuffer : list Z;
  audioBpm : Z;
  audioTimeSignature : Z;
  audioVolume : double;
  sampleRate : Z;
  beatLength : Z;
  currentTick : Z;
  writeCursor : Z;
  playCursor : Z;
  playing : bool;
  metronomeThread : bool;
  hWaveOut : bool;
  eventTickSink : bool;
  waveOut : list wave_call;
  tickEvents : list Z
}.

Definition set_mainSound (v : list Z) (s : Metronome) : Metronome :=
  {| mainSound := v; accentedSound := accentedSound s;
     audioBuffer := audioBuffer s; audioBpm := audioBpm s;
     audioTimeSignature := audioTimeSignature s;
     audioVolume := audioVolume s; sampleRate := sampleRate s;
     beatLength := beatLength s; currentTick := currentTick s;
     writeCursor := writeCursor s; playCursor := playCursor s;
     playing := playing s; metronomeThread := metronomeThread s;
     hWaveOut := hWaveOut s; eventTickSink := eventTickSink s;
     waveOut := waveOut s; tickEvents := tickEvents s |}.

Definition set_accentedSound (v : list Z) (s : Metronome) : Metronome :=
  {| mainSound := mainSound s; accentedSound := v;
     audioBuffer := audioBuffer s; audioBpm := audioBpm s;
     audioTimeSignature := audioTimeSignature s;
     audioVolume := audioVolume s; sampleRate := sampleRate s;
     beatLength := beatLength s; currentTick := currentTick s;
     writeCursor := writeCursor s; playCursor := playCursor s;
     playing := playing s; metronomeThread := metronomeThread s;
     hWaveOut := hWaveOut s; eventTickSink := eventTickSink s;
     waveOut := waveOut s; tickEvents := tickEvents s |}.

Definition set_audioBuffer (v : list Z) (s : Metronome) : Metronome :=
  {| mainSound := mainSound s; accentedSound := accentedSound s;
     audioBuffer := v; audioBpm := audioBpm s;
     audioTimeSignature := audioTimeSignature s;
     audioVolume := audioVolume s; sampleRate := sampleRate s;
     beatLength := beatLength s; currentTick := currentTick s;
     writeCursor := writeCursor s; playCursor := playCursor s;
     playing := playing s; metronomeThread := metronomeThread s;
     hWaveOut := hWaveOut s; eventTickSink := eventTickSink s;
     waveOut := waveOut s; tickEvents := tickEvents s |}.

Definition set_audioBpm (v : Z) (s : Metronome) : Metronome :=
  {| mainSound := mainSound s; accentedSound := accentedSound s;
     audioBuffer := audioBuffer s; audioBpm := v;
     audioTimeSignature := audioTimeSignature s;
     audioVolume := audioVolume s; sampleRate := sampleRate s;
     beatLength := beatLength s; currentTick := currentTick s;
     writeCursor := writeCursor s; playCursor := playCursor s;
     playing := playing s; metronomeThread := metronomeThread s;
     hWaveOut := hWaveOut s; eventTickSink := eventTickSink s;
     waveOut := waveOut s; tickEvents := tickEvents s |}.

Definition set_audioTimeSignature (v : Z) (s : Metronome) : Metronome :=
  {| mainSound := mainSound s; accentedSound := accentedSound s;
     audioBuffer := audioBuffer s; audioBpm := audioBpm s;
     audioTimeSignature := v; audioVolume := audioVolume s;
     sampleRate := sampleRate s; beatLength := beatLength s;
     currentTick := currentTick s; writeCursor := writeCursor s;
     playCursor := playCursor s; playing := playing s;
     metronomeThread := metronomeThread s; hWaveOut := hWaveOut s;
     eventTickSink := eventTickSink s; waveOut := waveOut s;
     tickEvents := tickEvents s |}.

Definition set_audioVolume (v : double) (s : Metronome) : Metronome :=
  {| mainSound := mainSound s; accentedSound := accentedSound s;
     audioBuffer := audioBuffer s; audioBpm := audioBpm s;
     audioTimeSignature := audioTimeSignature s; audioVolume := v;
     sampleRate := sampleRate s; beatLength := beatLength s;
     currentTick := currentTick s; writeCursor := writeCursor s;
     playCursor := playCursor s; playing := playing s;
     metronomeThread := metronomeThread s; hWaveOut := hWaveOut s;
     eventTickSink := eventTickSink s; waveOut := waveOut s;
     tickEvents := tickEvents s |}.

Definition set_beatLength (v : Z) (s : Metronome) : Metronome :=
  {| mainSound := mainSound s; accentedSound := accentedSound s;
     audioBuffer := audioBuffer s; audioBpm := audioBpm s;
     audioTimeSignature := audioTimeSignature s;
     audioVolume := audioVolume s; sampleRate := sampleRate s;
     beatLength := v; currentTick := currentTick s;
     writeCursor := writeCursor s; playCursor := playCursor s;
     playing := playing s; metronomeThread := metronomeThread s;
     hWaveOut := hWaveOut s; eventTickSink := eventTickSink s;
     waveOut := waveOut s; tickEvents := tickEvents s |}.

Definition set_currentTick (v : Z) (s : Metronome) : Metronome :=
  {| mainSound := mainSound s; accentedSound := accentedSound s;
     audioBuffer := audioBuffer s; audioBpm := audioBpm s;
     audioTimeSignature := audioTimeSignature s;
     audioVolume := audioVolume s; sampleRate := sampleRate s;
     beatLength := beatLength s; currentTick := v;
     writeCursor := writeCursor s; playCursor := playCursor s;
     playing := playing s; metronomeThread := metronomeThread s;
     hWaveOut := hWaveOut s; eventTickSink := eventTickSink s;
     waveOut := waveOut s; tickEvents := tickEvents s |}.

Definition set_writeCursor (v : Z) (s : Metronome) : Metronome :=
  {| mainSound := mainSound s; accentedSound := accentedSound s;
     audioBuffer := audioBuffer s; audioBpm := audioBpm s;
     audioTimeSignature := audioTimeSignature s;
     audioVolume := audioVolume s; sampleRate := sampleRate s;
     beatLength := beatLength s; currentTick := currentTick s;
     writeCursor := v; playCursor := playCursor s; playing := playing s;
     metronomeThread := metronomeThread s; hWaveOut := hWaveOut s;
     eventTickSink := eventTickSink s; waveOut := waveOut s;
     tickEvents := tickEvents s |}.

Definition set_playCursor (v : Z) (s : Metronome) : Metronome :=
  {| mainSound := mainSound s; accentedSound := accentedSound s;
     audioBuffer := audioBuffer s; audioBpm := audioBpm s;
     audioTimeSignature := audioTimeSignature s;
     audioVolume := audioVolume s; sampleRate := sampleRate s;
     beatLength := beatLength s; currentTick := currentTick s;
     writeCursor := writeCursor s; playCursor := v; playing := playing s;
     metronomeThread := metronomeThread s; hWaveOut := hWaveOut s;
     eventTickSink := eventTickSink s; waveOut := waveOut s;
     tickEvents := tickEvents s |}.

Definition set_playing (v : bool) (s : Metronome) : Metronome :=
  {| mainSound := mainSound s; accentedSound := accentedSound s;
     audioBuffer := audioBuffer s; audioBpm := audioBpm s;
     audioTimeSignature := audioTimeSignature s;
     audioVolume := audioVolume s; sampleRate := sampleRate s;
     beatLength := beatLength s; currentTick := currentTick s;
     writeCursor := writeCursor s; playCursor := playCursor s; playing := v;
     metronomeThread := metronomeThread s; hWaveOut := hWaveOut s;
     eventTickSink := eventTickSink s; waveOut := waveOut s;
     tickEvents := tickEvents s |}.

Definition set_metronomeThread (v : bool) (s : Metronome) : Metronome :=
  {| mainSound := mainSound s; accentedSound := accentedSound s;
     audioBuffer := audioBuffer s; audioBpm := audioBpm s;
     audioTimeSignature := audioTimeSignature s;
     audioVolume := audioVolume s; sampleRate := sampleRate s;
     beatLength := beatLength s; currentTick := currentTick s;
     writeCursor := writeCursor s; playCursor := playCursor s;
     playing := playing s; metronomeThread := v; hWaveOut := hWaveOut s;
     eventTickSink := eventTickSink s; waveOut := waveOut s;
     tickEvents := tickEvents s |}.

Definition set_hWaveOut (v : bool) (s : Metronome) : Metronome :=
  {| mainSound := mainSound s; accentedSound := accentedSound s;
     audioBuffer := audioBuffer s; audioBpm := audioBpm s;
     audioTimeSignature := audioTimeSignature s;
     audioVolume := audioVolume s; sampleRate := sampleRate s;
     beatLength := beatLength s; currentTick := currentTick s;
     writeCursor := writeCursor s; playCursor := playCursor s;
     playing := playing s; metronomeThread := metronomeThread s;
     hWaveOut := v; eventTickSink := eventTickSink s; waveOut := waveOut s;
     tickEvents := tickEvents s |}.

Definition set_eventTickSink (v : bool) (s : Metronome) : Metronome :=
  {| mainSound := mainSound s; accentedSound := accentedSound s;
     audioBuffer := audioBuffer s; audioBpm := audioBpm s;
     audioTimeSignature := audioTimeSignature s;
     audioVolume := audioVolume s; sampleRate := sampleRate s;
     beatLength := beatLength s; currentTick := currentTick s;
     writeCursor := writeCursor s; playCursor := playCursor s;
     playing := playing s; metronomeThread := metronomeThread s;
     hWaveOut := hWaveOut s; eventTickSink := v; waveOut := waveOut s;
     tickEvents := tickEvents s |}.

Definition set_waveOut (v : list wave_call) (s : Metronome) : Metronome :=
  {| mainSound := mainSound s; accentedSound := accentedSound s;
     audioBuffer := audioBuffer s; audioBpm := audioBpm s;
     audioTimeSignature := audioTimeSignature s;
     audioVolume := audioVolume s; sampleRate := sampleRate s;
     beatLength := beatLength s; currentTick := currentTick s;
     writeCursor := writeCursor s; playCursor := playCursor s;
     playing := playing s; metronomeThread := metronomeThread s;
     hWaveOut := hWaveOut s; eventTickSink := eventTickSink s; waveOut := v;
     tickEvents := tickEvents s |}.

Definition set_tickEvents (v : list Z) (s : Metronome) : Metronome :=
  {| mainSound := mainSound s; accentedSound := accentedSound s;
     audioBuffer := audioBuffer s; audioBpm := audioBpm s;
     audioTimeSignature := audioTimeSignature s;
     audioVolume := audioVolume s; sampleRate := sampleRate s;
     beatLength := beatLength s; currentTick := currentTick s;
     writeCursor := writeCursor s; playCursor := playCursor s;
     playing := playing s; metronomeThread := metronomeThread s;
     hWaveOut := hWaveOut s; eventTickSink := eventTickSink s;
     waveOut := waveOut s; tickEvents := v |}.

(** ** State and exceptions *)

(** An operation returns, throws with the state it reached, or leaves the
    defined behaviour of the language (signed overflow, out-of-range cast or
    access, [std::terminate]). *)
Inductive outcome (A : Type) : Type :=
| Ok (a : A) (s : Metronome)
| Throw (e : exn) (s : Metronome)
| Crash.

Arguments Ok {A} a s.
Arguments Throw {A} e s.
Arguments Crash {A}.

Definition M (A : Type) : Type := Metronome -> outcome A.

Definition ret {A} (a : A) : M A := fun s => Ok a s.

Definition bind {A B} (m : M A) (k : A -> M B) : M B :=
  fun s =>
    match m s with
    | Ok a s' => k a s'
    | Throw e s' => Throw e s'
    | Crash => Crash
    end.

Definition throw {A} (e : exn) : M A := fun s => Throw e s.
Definition crash {A} : M A := fun _ => Crash.
Definition get {A} (f : Metronome -> A) : M A := fun s => Ok (f s) s.
Definition modify (f : Metronome -> Metronome) : M unit := fun s => Ok tt (f s).
Definition when (b : bool) (m : M unit) : M unit := if b then m else ret tt.

Declare Scope engine_scope.
Delimit Scope engine_scope with engine.
Notation "'let*' x ':=' m 'in' k" := (bind m (fun x => k))
  (at level 10, x name, m at level 100, k at level 200) : engine_scope.
Notation "m >> k" := (bind m (fun _ => k))
  (at level 90, right associativity) : engine_scope.
Local Open Scope engine_scope.

Definition lift (r : exn + list Z) : M (list Z) :=
  match r with
  | inl e => throw e
  | inr v => ret v
  end.

Definition of_option {A} (o : option A) : M A :=
  match o with
  | Some a => ret a
  | None => crash
  end.

(** ** Integer and container primitives *)

Definition int_ok (z : Z) : bool := (INT_MIN <=? z) && (z <=? INT_MAX).

(** Signed [int] arithmetic: overflow is undefined. *)
Definition checked (z : Z) : M Z := if int_ok z then ret z else crash.

(** [static_cast<int>] of a [size_t]: reduced modulo [2^32]. *)
Definition wrap_int (z : Z) : Z := (z + 2 ^ 31) mod 2 ^ 32 - 2 ^ 31.

Definition size_int (v : list Z) : Z := wrap_int (Z.of_nat (length v)).

(** [v.resize(n, 0)] on an empty vector; a negative [int] converts to a size
    beyond [max_size]. *)
Definition resize (n : Z) : M (list Z) :=
  if n <? 0 then throw length_error else ret (replicate (Z.to_nat n) 0).

(** The element loop of [std::copy_n]: one assignment per sample, undefined
    when the source or the destination runs out. *)
Fixpoint copy_loop (src : list Z) (n : nat) (dst : list Z) (off : nat)
  {struct n} : option (list Z) :=
  match n with
  | O => Some dst
  | S n' =>
      match src with
      | [] => None
      | x :: src' =>
          if decide (off < length dst)%nat
          then copy_loop src' n' (<[off := x]> dst) (S off)
          else None
      end
  end.

Definition copy_n (src : list Z) (n : Z) (dst : list Z) (off : Z) : M (list Z) :=
  if off <? 0 then crash
  else of_option (copy_loop src (Z.to_nat n) dst (Z.to_nat off)).

(** [std::copy(v.begin() + from, v.begin() + from + n, out)]. *)
Definition slice (v : list Z) (from n : Z) : M (list Z) :=
  if (from <? 0) || (n <? 0) || (Z.of_nat (length v) <? from + n) then crash
  else ret (take (Z.to_nat n) (drop (Z.to_nat from) v)).

(** ** Bar buffer *)

(** The body of the [for] loop of [generateBuffer], [n] iterations from beat
    [i]. *)
Fixpoint fill_beats (newBeatLength : Z) (n : nat) (i : Z) (bufferBar : list Z)
  : M (list Z) :=
  match n with
  | O => ret bufferBar
  | S n' =>
      let* sound := get (if i =? 0 then accentedSound else mainSound) in
      let copyLength := Z.min newBeatLength (size_int sound) in
      let* bufferBar' := copy_n sound copyLength bufferBar (i * newBeatLength) in
      fill_beats newBeatLength n' (i + 1) bufferBar'
  end.

(** [Metronome::generateBuffer] (lines 184-210). *)
Definition generateBuffer : M (list Z) :=
  let* rate := get sampleRate in
  let* bpm := get audioBpm in
  let* newBeatLength :=
    of_option (to_int (ddiv (dmul (of_int rate) (DFin 60)) (of_int bpm))) in
  let* timeSignature := get audioTimeSignature in
  let* bufferBar :=
    if timeSignature <? 2 then
      let* empty := resize newBeatLength in
      let* main := get mainSound in
      copy_n main (Z.min newBeatLength (size_int main)) empty 0
    else
      let beats := Z.max 1 timeSignature in
      let* total := checked (newBeatLength * beats) in
      let* empty := resize total in
      fill_beats newBeatLength (Z.to_nat beats) 0 empty
  in
  modify (set_beatLength newBeatLength) >>
  ret bufferBar.

(** ** Control surface *)

(** A call on the device, made where the source guards it with
    [if (hWaveOut)]. *)
Definition device (c : wave_call) : M unit :=
  fun s => if hWaveOut s then Ok tt (set_waveOut (waveOut s ++ [c]) s) else Ok tt s.

Definition IsPlaying : M bool := get playing.

(** [playing.exchange(v)]. *)
Definition exchange (v : bool) : M bool :=
  let* old := get playing in
  modify (set_playing v) >> ret old.

(** [metronomeThread = std::thread(...)]: assigning over a joinable thread
    terminates the program. *)
Definition spawn : M unit :=
  let* joinable := get metronomeThread in
  if joinable then crash else modify (set_metronomeThread true).

Definition join : M unit :=
  let* joinable := get metronomeThread in
  when joinable (modify (set_metronomeThread false)).

(** [Metronome::Play] (lines 35-46). *)
Definition Play : M unit :=
  let* was := exchange true in
  when (negb was)
    (let* buffer := generateBuffer in
     modify (set_audioBuffer buffer) >>
     device waveOutRestart >>
     spawn).

(** [Metronome::Pause] (lines 48-65). *)
Definition Pause : M unit :=
  let* was := exchange false in
  when was
    (device waveOutBreakLoop >>
     modify (set_currentTick 0) >>
     modify (set_playCursor 0) >>
     modify (set_writeCursor 0) >>
     join).

(** [Metronome::Stop] (lines 67-81). *)
Definition Stop : M unit :=
  let* was := exchange false in
  when was (device waveOutReset >> join).

(** [Metronome::SetBPM] (lines 82-98); the settle delay takes no part in
    the state. *)
Definition SetBPM (bpm : Z) : M unit :=
  let* current := get audioBpm in
  when (negb (current =? bpm))
    (let* wasPlaying := IsPlaying in
     when wasPlaying Pause >>
     modify (set_audioBpm bpm) >>
     when wasPlaying Play).

(** [Metronome::SetTimeSignature] (lines 99-116). *)
Definition SetTimeSignature (timeSignature : Z) : M unit :=
  let* current := get audioTimeSignature in
  when (negb (current =? timeSignature))
    (let* wasPlaying := IsPlaying in
     when wasPlaying Pause >>
     modify (set_audioTimeSignature timeSignature) >>
     when wasPlaying Play).

(** [Metronome::SetVolume] (lines 118-131). *)
Definition SetVolume (volume : double) : M unit :=
  if dlt volume (DFin 0) || dlt (DFin 1) volume
  then throw (invalid_argument "Volume must be between 0.0 and 1.0")
  else
    modify (set_audioVolume volume) >>
    let* open := get hWaveOut in
    when open
      (let* vol := of_option (to_dword (dmul (DFin 65535) volume)) in
       device (waveOutSetVolume
                 (Z.lor vol (Z.shiftl vol 16 mod 2 ^ 32)))).

Definition is_empty {A} (v : list A) : bool :=
  match v with
  | [] => true
  | _ => false
  end.

(** [Metronome::SetAudioFile] (lines 133-159). *)
Definition SetAudioFile (mainFileBytes accentedFileBytes : list byte) : M unit :=
  when (negb (is_empty mainFileBytes) || negb (is_empty accentedFileBytes))
    (let* wasPlaying := IsPlaying in
     when wasPlaying Pause >>
     when (negb (is_empty mainFileBytes))
       (let* v := lift (byteArrayToShortArray mainFileBytes) in
        modify (set_mainSound v)) >>
     when (negb (is_empty accentedFileBytes))
       (let* v := lift (byteArrayToShortArray accentedFileBytes) in
        modify (set_accentedSound v)) >>
     when wasPlaying Play).

(** [Metronome::GetVolume] (lines 160-163). *)
Definition GetVolume : M Z :=
  let* v := get audioVolume in
  of_option (to_int (dmul v (DFin 100))).

Definition EnableTickCallback (eventSink : bool) : M unit :=
  modify (set_eventTickSink eventSink).

(** ** Completion callback and producer *)

(** [eventTickSink->Success(beat)]. *)
Definition notify (beat : Z) : M unit :=
  fun s => Ok tt (set_tickEvents (tickEvents s ++ [beat]) s).

(** [Metronome::OnBufferDone] (lines 257-277). *)
Definition OnBufferDone : M unit :=
  let* step := get beatLength in
  let* cursor := get playCursor in
  modify (set_playCursor (cursor + step)) >>
  let* sink := get eventTickSink in
  when sink
    (let* timeSignature := get audioTimeSignature in
     (if timeSignature <? 2 then modify (set_currentTick 0)
      else
        let* tick := get currentTick in
        let* next := checked (tick + 1) in
        modify (set_currentTick (if timeSignature <=? next then 0 else next))) >>
     let* tick := get currentTick in
     notify tick).

Inductive wave_msg : Type := WOM_OPEN | WOM_CLOSE | WOM_DONE.

(** [Metronome::WaveOutProc] (lines 234-256); freeing the finished header
    takes no part in the state. *)
Definition WaveOutProc (uMsg : wave_msg) : M unit :=
  match uMsg with
  | WOM_DONE =>
      let* running := get playing in
      when running OnBufferDone
  | _ => ret tt
  end.

(** [Metronome::PlaySound] (lines 278-338), one pass of the producer;
    [prepared] and [written] are the device's answers to
    [waveOutPrepareHeader] and [waveOutWrite].  A fragment the device refused
    is dropped. *)
Definition PlaySound (prepared written : bool) : M unit :=
  let* running := IsPlaying in
  when running
    (let* step := get beatLength in
     if step <? 0 then crash else
     let* buffer := get audioBuffer in
     let* currentWriteCursor := get writeCursor in
     let size := Z.of_nat (length buffer) in
     if size =? 0 then crash else
     let startPos := currentWriteCursor mod size in
     let copySize := Z.min step (wrap_int (size - startPos)) in
     let* head := slice buffer startPos copySize in
     let* tail :=
       if copySize <? step then slice buffer 0 (step - copySize) else ret [] in
     modify (set_writeCursor (currentWriteCursor + step)) >>
     when (prepared && written) (device (waveOutWrite (head ++ tail)))).

(** [Metronome::StartMetronome] (lines 340-354), one iteration of its loop:
    it runs on the producer thread, so only while that thread exists. *)
Definition StartMetronome_step (prepared written : bool) : M unit :=
  let* alive := get metronomeThread in
  when alive (PlaySound prepared written).

(** [Metronome::Destroy] (lines 355-363). *)
Definition Destroy : M unit :=
  Stop >>
  let* open := get hWaveOut in
  when open (device waveOutClose >> modify (set_hWaveOut false)).

(** ** Construction *)

(** Modelled from the spec: the default member initialisers of
    [metronome.h], after the constructor's initialiser list has stored its
    four parameters. *)
Definition blank (bpm timeSignature : Z) (volume : double) (rate : Z) : Metronome :=
  {| mainSound := []; accentedSound := []; audioBuffer := [];
     audioBpm := bpm; audioTimeSignature := timeSignature;
     audioVolume := volume; sampleRate := rate;
     beatLength := 0; currentTick := 0; writeCursor := 0; playCursor := 0;
     playing := false; metronomeThread := false;
     hWaveOut := false; eventTickSink := false;
     waveOut := []; tickEvents := [] |}.

(** [Metronome::InitializeAudio] (lines 212-232); [result] is the status
    returned by [waveOutOpen]. *)
Definition InitializeAudio (result : Z) : M unit :=
  if negb (result =? 0)
  then throw (runtime_error
                ("Failed to initialize audio device. Error: " ++ pretty result))
  else
    modify (set_hWaveOut true) >>
    let* v := get audioVolume in
    SetVolume v.

(** The body of the constructor (lines 13-28). *)
Definition construct (mainFileBytes accentedFileBytes : list byte) (result : Z)
  : M unit :=
  if is_empty mainFileBytes
  then throw (invalid_argument "Main sound file cannot be empty")
  else
    let* main := lift (byteArrayToShortArray mainFileBytes) in
    modify (set_mainSound main) >>
    let* accent :=
      if is_empty accentedFileBytes then ret main
      else lift (byteArrayToShortArray accentedFileBytes) in
    modify (set_accentedSound accent) >>
    InitializeAudio result >>
    let* buffer := generateBuffer in
    modify (set_audioBuffer buffer).

Definition new_Metronome (mainFileBytes accentedFileBytes : list byte)
    (bpm timeSignature : Z) (volume : double) (rate : Z) (result : Z)
  : outcome unit :=
  construct mainFileBytes accentedFileBytes result
    (blank bpm timeSignature volume rate).

(** ** Runs of the engine *)

(** What can happen to a constructed engine: a call from the control surface,
    a pass of the producer thread, or a completion reported by the device. *)
Inductive op : Type :=
| OpPlay
| OpPause
| OpStop
| OpSetBPM (bpm : Z)
| OpSetTimeSignature (timeSignature : Z)
| OpSetVolume (volume : double)
| OpSetAudioFile (mainFileBytes accentedFileBytes : list byte)
| OpEnableTickCallback (eventSink : bool)
| OpProducer (prepared written : bool)
| OpDone.

Definition exec (o : op) : M unit :=
  match o with
  | OpPlay => Play
  | OpPause => Pause
  | OpStop => Stop
  | OpSetBPM bpm => SetBPM bpm
  | OpSetTimeSignature n => SetTimeSignature n
  | OpSetVolume v => SetVolume v
  | OpSetAudioFile m a => SetAudioFile m a
  | OpEnableTickCallback e => EnableTickCallback e
  | OpProducer p w => StartMetronome_step p w
  | OpDone => WaveOutProc WOM_DONE
  end.

(** The state an operation leaves behind; a caller may catch an exception and
    go on with the engine as the throwing call left it. *)
Definition after {A} (r : outcome A) : option Metronome :=
  match r with
  | Ok _ s => Some s
  | Throw _ s => Some s
  | Crash => None
  end.

Fixpoint run (ops : list op) (s : Metronome) : option Metronome :=
  match ops with
  | [] => Some s
  | o :: rest =>
      match after (exec o s) with
      | Some s' => run rest s'
      | None => None
      end
  end.

(** The same from the outcome of the constructor. *)
Definition run_from (r : outcome unit) (ops : list op) : option Metronome :=
  match r with
  | Ok _ s => run ops s
  | _ => None
  end.

(** ** Vocabulary of the properties *)

(** The waveform of beat [i] of a bar: the accent on the first beat, the main
    sound on the others. *)
Definition beat_sound (s : Metronome) (i : Z) : list Z :=
  (if i =? 0 then accentedSound else mainSound) s.

(** A bar of [audioTimeSignature s] slots of [L] samples: each slot starts
    with the samples copied from its waveform, as many as fit, and is silent
    after them. *)
Definition bar_layout (s : Metronome) (L : Z) (bar : list Z) : Prop :=
  Z.of_nat (length bar) = L * audioTimeSignature s /\
  forall i, 0 <= i < audioTimeSignature s ->
    let n := Z.min L (Z.of_nat (length (beat_sound s i))) in
    (forall j, 0 <= j < n ->
       bar !! Z.to_nat (i * L + j) = beat_sound s i !! Z.to_nat j) /\
    (forall j, n <= j < L -> bar !! Z.to_nat (i * L + j) = Some 0).

(** [r] is an integer nearest to the quotient [n / d]. *)
Definition nearest_integer (n d r : Z) : Prop :=
  forall m, Z.abs (d * r - n) <= Z.abs (d * m - n).

Definition volume_error : exn :=
  invalid_argument "Volume must be between 0.0 and 1.0".

(** The state after a completion that delivered beat [t] to the tick sink. *)
Definition delivered (t : Z) (s : Metronome) : Metronome :=
  set_tickEvents (tickEvents s ++ [t]) (set_currentTick t s).

(** The beat index is inside the bar. *)
Definition beat_in_bar (s : Metronome) : Prop :=
  if audioTimeSignature s <? 2 then currentTick s = 0
  else 0 <= currentTick s < audioTimeSignature s.

(** The first samples of the fragment the device received last. *)
Definition last_fragment_start (n : nat) (s : Metronome) : option (list Z) :=
  match last (waveOut s) with
  | Some (waveOutWrite fragment) => Some (take n fragment)
  | _ => None
  end.

(** What every transition but [Stop] keeps: a stopped engine has its beat
    index at 0, and the index is inside the bar. *)
Definition beat_ok (s : Metronome) : Prop :=
  (playing s = false -> currentTick s = 0) /\ beat_in_bar s.

(** An operation that touches neither the running flag nor the beat index,
    whether it returns or throws. *)
Definition keeps {A} (m : M A) : Prop :=
  forall s,
    match m s with
    | Ok _ s' | Throw _ s' =>
        playing s' = playing s /\ currentTick s' = currentTick s
    | Crash => True
    end.

(** Two-sample main click and one-sample accent, as 16-bit PCM bytes. *)
Definition click : list byte := [x01; x00; x02; x00].
Definition accent : list byte := [x09; x00].

(** An engine at 120 beats per minute, four beats per bar, 44100 Hz, full
    volume, on a device that opened without error. *)
Definition demo : outcome unit :=
  new_Metronome click accent 120 4 (DFin 1) 44100 0.

(** A stopped engine with those waveforms, as construction leaves it before
    the first bar is built; and the same engine playing with a tick sink. *)
Definition stopped (bpm timeSignature rate : Z) : Metronome :=
  set_hWaveOut true
    (set_accentedSound [9]
       (set_mainSound [1; 2] (blank bpm timeSignature (DFin 1) rate))).

Definition ticking (bpm timeSignature rate : Z) : Metronome :=
  set_eventTickSink true
    (set_metronomeThread true
       (set_playing true
          (set_beatLength (rate * 60 / bpm) (stopped bpm timeSignature rate)))).

(** ** Vocabulary of the further properties *)

(** Slot [i] of a bar whose beats are [L] samples long. *)
Definition slot (bar : list Z) (L i : Z) : list Z :=
  take (Z.to_nat L) (drop (Z.to_nat (i * L)) bar).

(** The state [Play] leaves when the bar [bar] with beats of [L] samples was
    built: flag set, bar and beat length stored, stream restarted on an open
    device, producer thread running; nothing else is written. *)
Definition started (bar : list Z) (L : Z) (s : Metronome) : Metronome :=
  let s1 := set_audioBuffer bar (set_beatLength L (set_playing true s)) in
  set_metronomeThread true
    (if hWaveOut s then set_waveOut (waveOut s ++ [waveOutRestart]) s1 else s1).

(** What a pass of the producer leaves: the cursor advanced, and the fragment
    logged when the device took it. *)
Definition produced (prepared written : bool) (fragment : list Z)
    (s : Metronome) : Metronome :=
  let s1 := set_writeCursor (writeCursor s + beatLength s) s in
  if prepared && written && hWaveOut s
  then set_waveOut (waveOut s ++ [waveOutWrite fragment]) s1
  else s1.

(** A playing four-beat engine with its bar, four samples per beat. *)
Definition rolling : Metronome :=
  set_audioBuffer [9; 0; 0; 0; 1; 2; 0; 0; 1; 2; 0; 0; 1; 2; 0; 0]
    (ticking 120 4 8).

(** The state [Pause] leaves on a playing engine whose producer thread runs:
    flag cleared, stream broken off on an open device, the beat index and
    both cursors at zero, the thread joined. *)
Definition paused (s : Metronome) : Metronome :=
  let s1 := set_playing false s in
  set_metronomeThread false
    (set_writeCursor 0
       (set_playCursor 0
          (set_currentTick 0
             (if hWaveOut s
              then set_waveOut (waveOut s ++ [waveOutBreakLoop]) s1
              else s1)))).

(** The state [Stop] leaves on a playing engine whose producer thread runs:
    flag cleared, stream reset on an open device, the thread joined; the beat
    index and the cursors are not written. *)
Definition halted (s : Metronome) : Metronome :=
  let s1 := set_playing false s in
  set_metronomeThread false
    (if hWaveOut s
     then set_waveOut (waveOut s ++ [waveOutReset]) s1
     else s1).

(** A waveform after [SetAudioFile]: kept when no bytes are given. *)
Definition replaced (bytes : list byte) (old : list Z) : list Z :=
  if is_empty bytes then old else memcpy_shorts bytes.

(** The engine with the waveforms [SetAudioFile] stores. *)
Definition with_sounds (mainFileBytes accentedFileBytes : list byte)
    (s : Metronome) : Metronome :=
  set_accentedSound (replaced accentedFileBytes (accentedSound s))
    (set_mainSound (replaced mainFileBytes (mainSound s)) s).

(** The exception of [byteArrayToShortArray]. *)
Definition length_error_16bit : exn :=
  invalid_argument "Invalid byte array length for PCM_16BIT".

(** The percentage [GetVolume] reads back after [SetVolume(p / 100.0)]. *)
Definition percent_read_back (p : Z) : Z :=
  if (p =? 29) || (p =? 57) || (p =? 58) then p - 1 else p.

(** [p / 100.0] for an [int] percentage. *)
Definition percent (p : Z) : double := ddiv (of_int p) (DFin 100).

(** [SetVolume(p / 100.0)] passes the range check and the device cast, and
    [GetVolume] then reads [percent_read_back p]. *)
Definition percent_checked (p : Z) : bool :=
  negb (dlt (percent p) (DFin 0) || dlt (DFin 1) (percent p)) &&
  match to_dword (dmul (DFin 65535) (percent p)) with
  | Some _ => true
  | None => false
  end &&
  match to_int (dmul (percent p) (DFin 100)) with
  | Some r => r =? percent_read_back p
  | None => false
  end.

(** What every transition keeps, [Stop] included: the beat index and the
    indices delivered to the sink are not negative, and a producer thread
    exists only while the engine is marked playing. *)
Definition coherent (s : Metronome) : Prop :=
  0 <= currentTick s /\
  Forall (fun t => 0 <= t) (tickEvents s) /\
  (metronomeThread s = true -> playing s = true).

(** An operation that keeps [coherent], whether it returns or throws. *)
Definition preserves {A} (m : M A) : Prop :=
  forall s, coherent s ->
    match m s with
    | Ok _ s' | Throw _ s' => coherent s'
    | Crash => True
    end.


(** An operation that touches neither the running flag, nor the thread, nor
    the write cursor, whether it returns or throws. *)
Definition untouched {A} (m : M A) : Prop :=
  forall s,
    match m s with
    | Ok _ s' | Throw _ s' =>
        playing s' = playing s /\ metronomeThread s' = metronomeThread s /\
        writeCursor s' = writeCursor s
    | Crash => True
    end.

(** ** Proof support *)

(** Unfolds the monad's operations and the one-line helpers built on them. *)
Ltac monad :=
  cbv [bind ret get modify throw crash when of_option lift checked resize
       device exchange spawn join IsPlaying notify EnableTickCallback] in *.


(** * Facts about the arithmetic *)

Example beat_length_120bpm :
  to_int (ddiv (dmul (of_int 44100) (DFin 60)) (of_int 120)) = Some 22050.
Proof. vm_compute. reflexivity. Qed.

Example beat_length_zero_bpm :
  to_int (ddiv (dmul (of_int 44100) (DFin 60)) (of_int 0)) = None.
Proof. vm_compute. reflexivity. Qed.

(** The double nearest to one tenth, [0x1.999999999999ap-4]. *)
Example one_tenth :
  round64 (1 # 10) = DFin (7205759403792794 # Z.to_pos (2 ^ 56)).
Proof. vm_compute. reflexivity. Qed.

(** The rounded quotient is within half a unit of the exact one. *)
Lemma rne_bounds n d :
  0 < d -> 2 * n - d <= 2 * d * rne n d <= 2 * n + d.
Proof.
  intros Hd. unfold rne.
  pose proof (Z.div_mod n d ltac:(lia)) as E.
  pose proof (Z.mod_pos_bound n d Hd) as B.
  repeat match goal with
         | |- context [if ?b then _ else _] => destruct b eqn:?
         end; nia.
Qed.

Lemma rne_exact j d : 0 < d -> rne (j * d) d = j.
Proof.
  intros Hd. unfold rne.
  rewrite Z.div_mul, Z.mod_mul by lia.
  destruct (2 * 0 <? d) eqn:E; [reflexivity | lia].
Qed.

(** [binade n d] is not above the logarithm of the quotient. *)
Lemma binade_lower n d :
  0 < n -> 0 < d ->
  (0 <= binade n d -> d * 2 ^ binade n d <= n) /\
  (binade n d < 0 -> d <= n * 2 ^ (- binade n d)) /\
  binade n d <= Z.log2 n.
Proof.
  intros Hn Hd. unfold binade, binade_le.
  pose proof (Z.log2_spec n Hn) as [Ln Un].
  pose proof (Z.log2_spec d Hd) as [Ld Ud].
  pose proof (Z.log2_nonneg n) as Nn.
  pose proof (Z.log2_nonneg d) as Nd.
  set (a := Z.log2 n) in *. set (b := Z.log2 d) in *. clearbody a b.
  destruct (Z.leb_spec 0 (a - b)) as [S0|S0].
  - destruct (Z.leb_spec (d * 2 ^ (a - b)) n) as [T|T].
    + split; [lia | split; lia].
    + split; [| split; [| lia]].
      * intros H. assert (E : a = b + 1 + (a - b - 1)) by lia.
        assert (P : 2 ^ a = 2 ^ (b + 1) * 2 ^ (a - b - 1)).
        { rewrite E at 1. rewrite Z.pow_add_r by lia. reflexivity. }
        assert (0 < 2 ^ (a - b - 1)) by (apply Z.pow_pos_nonneg; lia).
        nia.
      * intros H. assert (a = b) by lia. subst a.
        replace (- (b - b - 1)) with 1 by lia. change (2 ^ 1) with 2.
        rewrite Z.pow_succ_r in Ud by lia. lia.
  - assert (P : 2 ^ (b + 1) = 2 ^ (a + 1) * 2 ^ (b - a)).
    { replace (b + 1) with (a + 1 + (b - a)) at 1 by lia.
      rewrite Z.pow_add_r by lia. reflexivity. }
    assert (0 < 2 ^ (b - a)) by (apply Z.pow_pos_nonneg; lia).
    replace (- (a - b)) with (b - a) by lia.
    destruct (Z.leb_spec d (n * 2 ^ (b - a))) as [T|T].
    + split; [lia | split; [| lia]].
      intros _. replace (- (a - b)) with (b - a) by lia. lia.
    + split; [lia | split; [| lia]].
      intros _. replace (- (a - b - 1)) with (b - a + 1) by lia.
      rewrite Z.pow_add_r by lia. change (2 ^ 1) with 2.
      rewrite Z.pow_succ_r in Ud, Un by lia.
      rewrite !Z.pow_add_r in P by lia. change (2 ^ 1) with 2 in P. nia.
Qed.

Lemma pow2_pos k : 0 <= k -> 0 < 2 ^ k.
Proof. intros. apply Z.pow_pos_nonneg; lia. Qed.

Lemma pow2_split a b : 0 <= a -> 0 <= b -> 2 ^ (a + b) = 2 ^ a * 2 ^ b.
Proof. intros. apply Z.pow_add_r; lia. Qed.

Lemma binade_bound n d c :
  0 < n -> 0 < d -> 0 <= c -> n < d * 2 ^ c -> binade n d < c.
Proof.
  intros Hn Hd Hc H.
  destruct (binade_lower n d Hn Hd) as (B1 & _ & _).
  destruct (Z.le_gt_cases 0 (binade n d)) as [P | P]; [| lia].
  specialize (B1 P). apply (Z.pow_lt_mono_r_iff 2); [lia | lia | nia].
Qed.

(** A quotient below [2^53] is rounded at a non-positive exponent, to a
    finite double. *)
Lemma round_pos_shape n d :
  0 < n -> 0 < d -> n < d * 2 ^ 53 ->
  exists k, 0 <= k /\ ulp_exp n d = - k /\
            round_pos n d = DFin (dyadic (rne (n * 2 ^ k) d) (- k)).
Proof.
  intros Hn Hd H.
  pose proof (binade_bound n d 53 Hn Hd ltac:(lia) H) as Hb.
  assert (He : ulp_exp n d <= 0) by (unfold ulp_exp; lia).
  exists (- ulp_exp n d). split; [lia |]. split; [lia |].
  unfold round_pos. set (e := ulp_exp n d) in *. clearbody e.
  rewrite Z.opp_involutive.
  destruct (Z.leb_spec 0 e) as [P | P]; cbn [andb]; [| reflexivity].
  assert (e = 0) by lia. subst e.
  change (- 0) with 0. change (2 ^ 0) with 1. rewrite !Z.mul_1_r.
  pose proof (rne_bounds n d Hd) as B.
  assert (M : rne n d <= 2 ^ 53) by nia.
  assert (B' : 2 ^ 53 < 2 ^ 1024) by (apply Z.pow_lt_mono_r; lia).
  destruct (Z.leb_spec (2 ^ 1024) (rne n d)) as [Q | Q]; [lia | reflexivity].
Qed.

Lemma trunc_dyadic m k :
  0 <= m -> 0 <= k -> trunc (dyadic m (- k)) = m / 2 ^ k.
Proof.
  intros Hm Hk. pose proof (pow2_pos k Hk) as Pk.
  unfold trunc, dyadic.
  destruct (Z.leb_spec 0 (- k)) as [P | P].
  - assert (k = 0) by lia. subst k. cbn [inject_Z Qnum Qden].
    change (2 ^ (- 0)) with 1. change (2 ^ 0) with 1.
    rewrite Z.mul_1_r, Z.quot_1_r, Z.div_1_r. reflexivity.
  - cbn [Qnum Qden]. rewrite Z.opp_involutive, Z2Pos.id by lia.
    apply Z.quot_div_nonneg; lia.
Qed.

Lemma dyadic_exact z k : 0 <= k -> (dyadic (z * 2 ^ k) (- k) == inject_Z z)%Q.
Proof.
  intros Hk. pose proof (pow2_pos k Hk) as Pk. unfold dyadic.
  destruct (Z.leb_spec 0 (- k)) as [P | P].
  - assert (k = 0) by lia. subst k. change (2 ^ (- 0)) with 1.
    change (2 ^ 0) with 1. rewrite !Z.mul_1_r. reflexivity.
  - unfold Qeq, inject_Z. cbn [Qnum Qden].
    rewrite Z.opp_involutive, Z2Pos.id by lia. lia.
Qed.

(** Rounding never reaches the next integer: for operands below [2^53] the
    truncated double quotient is the integer quotient. *)
Lemma round_pos_trunc n d :
  0 < n < 2 ^ 53 -> 0 < d < 2 ^ 53 ->
  exists q, round_pos n d = DFin q /\ trunc q = n / d.
Proof.
  intros [Hn Hn'] [Hd Hd'].
  destruct (round_pos_shape n d Hn Hd ltac:(nia)) as (k & Hk & He & ->).
  eexists; split; [reflexivity |].
  pose proof (pow2_pos k Hk) as Pk.
  assert (Hdk : d < 2 * 2 ^ k).
  { unfold ulp_exp in He.
    destruct (binade_lower n d Hn Hd) as (B1 & _ & _).
    set (fl := binade n d) in *. clearbody fl.
    assert (M : forall j, 52 <= j -> d < 2 * 2 ^ j).
    { intros j Hj. replace j with (52 + (j - 52)) by lia.
      rewrite pow2_split by lia.
      pose proof (pow2_pos (j - 52) ltac:(lia)).
      change (2 ^ 53) with (2 * 2 ^ 52) in Hd'. nia. }
    destruct (Z.le_gt_cases 52 k) as [Q | Q]; [apply M; lia |].
    assert (k = 52 - fl) by lia. subst k.
    assert (P : 0 <= fl) by lia. specialize (B1 P).
    assert (E : 2 ^ 53 = 2 * (2 ^ fl * 2 ^ (52 - fl))).
    { rewrite <- pow2_split by lia. replace (fl + (52 - fl)) with 52 by lia.
      reflexivity. }
    pose proof (pow2_pos fl P). nia. }
  set (p := 2 ^ k) in *.
  pose proof (rne_bounds (n * p) d ltac:(lia)) as B.
  set (m := rne (n * p) d) in *. clearbody m.
  pose proof (Z.div_mod n d ltac:(lia)) as E.
  pose proof (Z.mod_pos_bound n d ltac:(lia)) as R.
  set (N := n / d) in *. set (r := n mod d) in *. clearbody N r.
  assert (Lo : N * p <= m) by nia.
  assert (Hi : m < (N + 1) * p) by nia.
  assert (0 <= N) by nia.
  rewrite trunc_dyadic by nia. fold p.
  symmetry. apply (Z.div_unique_pos m p N (m - N * p)); lia.
Qed.

(** Rounding does not pass an integer bound of the quotient. *)
Lemma round_pos_range n d J :
  0 < n -> 0 < d -> 0 <= J < 2 ^ 53 -> n <= J * d ->
  exists q, round_pos n d = DFin q /\ 0 <= trunc q <= J.
Proof.
  intros Hn Hd HJ H.
  destruct (round_pos_shape n d Hn Hd ltac:(nia)) as (k & Hk & _ & ->).
  eexists; split; [reflexivity |].
  pose proof (pow2_pos k Hk) as Pk.
  set (p := 2 ^ k) in *.
  pose proof (rne_bounds (n * p) d ltac:(lia)) as B.
  set (m := rne (n * p) d) in *. clearbody m.
  assert (0 <= m) by nia.
  assert (m <= J * p) by nia.
  rewrite trunc_dyadic by lia. fold p. split.
  - apply Z.div_pos; lia.
  - apply Z.div_le_upper_bound; lia.
Qed.

(** Integers below [2^53] are doubles. *)
Lemma round_pos_exact z :
  0 < z < 2 ^ 53 ->
  exists q, round_pos z 1 = DFin q /\ (q == inject_Z z)%Q.
Proof.
  intros [Hz Hz'].
  destruct (round_pos_shape z 1 Hz ltac:(lia) ltac:(lia)) as (k & Hk & _ & ->).
  eexists; split; [reflexivity |].
  rewrite <- (Z.mul_1_r (z * 2 ^ k)), rne_exact by lia.
  apply dyadic_exact, Hk.
Qed.

Lemma Qred_spec q :
  exists g, 0 < g /\ Qnum q = g * Qnum (Qred q) /\
            Zpos (Qden q) = g * Zpos (Qden (Qred q)).
Proof.
  destruct q as [n d]. unfold Qred.
  pose proof (Z.ggcd_correct_divisors n (Zpos d)) as H.
  pose proof (Z.ggcd_gcd n (Zpos d)) as G.
  pose proof (Z.gcd_nonneg n (Zpos d)) as G0.
  destruct (Z.ggcd n (Zpos d)) as [g [a b]]. cbn [fst snd] in *.
  destruct H as [Ha Hb]. cbn [Qnum Qden].
  assert (g <> 0) by (intros ->; lia).
  assert (0 < g) by lia. assert (0 < b) by nia.
  exists g. rewrite Z2Pos.id by lia. auto.
Qed.

Lemma round64_proper q q' : (q == q')%Q -> round64 q = round64 q'.
Proof. intros H. unfold round64. rewrite (Qred_complete _ _ H). reflexivity. Qed.

Lemma of_int_exact z :
  - 2 ^ 53 < z < 2 ^ 53 ->
  exists q, of_int z = DFin q /\ (q == inject_Z z)%Q.
Proof.
  intros Hz. unfold of_int, round64.
  destruct (Qred_spec (inject_Z z)) as (g & Hg & Hn & Hd).
  cbn [inject_Z Qnum Qden] in Hn, Hd.
  assert (g = 1) by nia. subst g.
  assert (Hd' : Qden (Qred (inject_Z z)) = 1%positive) by lia.
  rewrite Z.mul_1_l in Hn. rewrite <- Hn, Hd'.
  destruct z as [| p | p].
  - eexists; split; reflexivity.
  - apply round_pos_exact. lia.
  - destruct (round_pos_exact (Zpos p) ltac:(lia)) as (q & -> & E).
    exists (- q)%Q. split; [reflexivity |]. rewrite E. reflexivity.
Qed.

Lemma round64_frac n d :
  0 <= n < 2 ^ 53 -> 0 < d < 2 ^ 53 ->
  exists q, round64 (n # Z.to_pos d) = DFin q /\ trunc q = n / d.
Proof.
  intros Hn Hd. unfold round64.
  destruct (Qred_spec (n # Z.to_pos d)) as (g & Hg & En & Ed).
  cbn [Qnum Qden] in En, Ed. rewrite Z2Pos.id in Ed by lia.
  set (r := Qred (n # Z.to_pos d)) in *. clearbody r.
  destruct r as [n' d']. cbn [Qnum Qden] in *.
  assert (Q : n / d = n' / Zpos d').
  { rewrite En, Ed. apply Z.div_mul_cancel_l; lia. }
  rewrite Q. destruct n' as [| p | p].
  - eexists; split; reflexivity.
  - apply round_pos_trunc; nia.
  - nia.
Qed.

(** Truncating the double quotient of [sampleRate * 60.0] by the tempo gives
    the integer quotient: the product is exact and the rounding error of the
    division never reaches the next integer. *)
Lemma beat_quotient sr bpm :
  0 <= sr <= 2 ^ 31 -> 0 < bpm <= INT_MAX ->
  exists q, ddiv (dmul (of_int sr) (DFin 60)) (of_int bpm) = DFin q /\
            trunc q = sr * 60 / bpm.
Proof.
  unfold INT_MAX. intros Hs Hb.
  destruct (of_int_exact sr ltac:(lia)) as (a & -> & Ea).
  cbn [dmul].
  rewrite (round64_proper (a * 60) (inject_Z (sr * 60))).
  2:{ rewrite Ea. unfold Qeq, Qmult, inject_Z. cbn [Qnum Qden]. lia. }
  fold (of_int (sr * 60)).
  destruct (of_int_exact (sr * 60) ltac:(lia)) as (b & -> & Eb).
  destruct (of_int_exact bpm ltac:(lia)) as (c & -> & Ec).
  cbn [ddiv].
  assert (Zc : Qzero_bool c = false).
  { unfold Qzero_bool. apply Z.eqb_neq. intros E0.
    unfold Qeq, inject_Z in Ec. cbn [Qnum Qden] in Ec. lia. }
  rewrite Zc.
  rewrite (round64_proper (b / c) (sr * 60 # Z.to_pos bpm)).
  2:{ rewrite Eb, Ec. destruct bpm as [| p | p]; try lia.
      unfold Qeq, Qdiv, Qmult, Qinv, inject_Z. cbn. lia. }
  apply round64_frac; lia.
Qed.

Lemma dneg_involutive x : dneg (dneg x) = x.
Proof.
  destruct x as [[n d] | b |]; cbn [dneg].
  - unfold Qopp. cbn [Qnum Qden]. rewrite Z.opp_involutive. reflexivity.
  - rewrite negb_involutive. reflexivity.
  - reflexivity.
Qed.

Lemma round64_opp q : round64 (- q) = dneg (round64 q).
Proof.
  unfold round64. rewrite Qred_opp.
  destruct (Qred q) as [[| p | p] d]; cbn [Qopp Qnum Qden Z.opp].
  - reflexivity.
  - reflexivity.
  - rewrite dneg_involutive. reflexivity.
Qed.

Lemma Qneg_bool_opp q : Qzero_bool q = false -> Qneg_bool (- q) = negb (Qneg_bool q).
Proof.
  unfold Qzero_bool, Qneg_bool. intros H.
  destruct q as [[| p | p] d]; cbn in *; try discriminate; reflexivity.
Qed.

Lemma Qzero_bool_opp q : Qzero_bool (- q) = Qzero_bool q.
Proof. unfold Qzero_bool. destruct q as [[| p | p] d]; reflexivity. Qed.

Lemma dmul_opp_l x y : dmul (dneg x) (DFin y) = dneg (dmul x (DFin y)).
Proof.
  destruct x as [a | b |]; cbn [dneg dmul].
  - rewrite <- round64_opp. apply round64_proper. ring.
  - destruct (Qzero_bool y); [reflexivity |]. cbn [dneg].
    destruct b, (Qneg_bool y); reflexivity.
  - reflexivity.
Qed.

Lemma ddiv_opp_l x y : ddiv (dneg x) (DFin y) = dneg (ddiv x (DFin y)).
Proof.
  destruct x as [a | b |]; cbn [dneg ddiv].
  - destruct (Qzero_bool y).
    + rewrite Qzero_bool_opp. destruct (Qzero_bool a) eqn:E; [reflexivity |].
      cbn [dneg]. rewrite Qneg_bool_opp by exact E. reflexivity.
    + rewrite <- round64_opp. apply round64_proper. unfold Qdiv. ring.
  - destruct b, (Qneg_bool y); reflexivity.
  - reflexivity.
Qed.

Lemma of_int_opp z : of_int (- z) = dneg (of_int z).
Proof. unfold of_int. rewrite <- round64_opp. reflexivity. Qed.

Lemma trunc_opp q : trunc (- q) = - trunc q.
Proof. unfold trunc. destruct q as [n d]. cbn [Qopp Qnum Qden]. apply Z.quot_opp_l. lia. Qed.

(** The same for a rate of either sign: the cast truncates toward zero. *)
Lemma beat_quotient_signed sr bpm :
  INT_MIN <= sr <= INT_MAX -> 0 < bpm <= INT_MAX ->
  exists q, ddiv (dmul (of_int sr) (DFin 60)) (of_int bpm) = DFin q /\
            trunc q = Z.quot (sr * 60) bpm.
Proof.
  unfold INT_MIN, INT_MAX. intros Hs Hb.
  destruct (Z.le_gt_cases 0 sr) as [P | P].
  - destruct (beat_quotient sr bpm ltac:(lia) ltac:(unfold INT_MAX; lia)) as (q & E & T).
    exists q. split; [exact E |]. rewrite T. symmetry. apply Z.quot_div_nonneg; lia.
  - destruct (beat_quotient (- sr) bpm ltac:(lia) ltac:(unfold INT_MAX; lia)) as (q & E & T).
    exists (- q)%Q. split.
    + replace sr with (- - sr) by lia.
      rewrite of_int_opp, dmul_opp_l.
      destruct (of_int_exact bpm ltac:(lia)) as (c & Ec & _).
      rewrite Ec in *. rewrite ddiv_opp_l, E. reflexivity.
    + rewrite trunc_opp, T.
      replace (sr * 60) with (- (- sr * 60)) by lia.
      rewrite Z.quot_opp_l by lia. f_equal. symmetry. apply Z.quot_div_nonneg; lia.
Qed.

(** A volume of the unit interval gives a device word below [2^16]. *)
Lemma volume_word q :
  (0 <= q)%Q -> (q <= 1)%Q ->
  exists w, to_dword (dmul (DFin 65535) (DFin q)) = Some w /\ 0 <= w <= 65535.
Proof.
  intros H0 H1. cbn [dmul]. unfold round64.
  destruct (Qred_spec (65535 * q)) as (g & Hg & En & Ed).
  destruct q as [a b]. unfold Qle in H0, H1. cbn in H0, H1, En, Ed.
  set (r := Qred (65535 * (a # b))) in *. clearbody r.
  destruct r as [n d]. cbn [Qnum Qden] in *.
  assert (R : forall x, 0 <= trunc x <= 65535 ->
              exists w, to_dword (DFin x) = Some w /\ 0 <= w <= 65535).
  { intros x Hx. exists (trunc x). split; [| exact Hx]. unfold to_dword.
    destruct (Z.leb_spec 0 (trunc x)); [| lia].
    destruct (Z.ltb_spec (trunc x) (2 ^ 32)); [reflexivity | lia]. }
  destruct n as [| p | p].
  - apply R. change (trunc 0) with 0. lia.
  - destruct (round_pos_range (Zpos p) (Zpos d) 65535) as (x & -> & Hx);
      try lia; [nia | apply R, Hx].
  - nia.
Qed.

(** * Verification *)

(** A small engine, to read the bar off: 8 Hz at 120 beats per minute gives
    four samples per beat. *)
Example small_engine :
  new_Metronome click accent 120 4 (DFin 1) 8 0 =
  Ok tt
    {| mainSound := [1; 2]; accentedSound := [9];
       audioBuffer := [9; 0; 0; 0; 1; 2; 0; 0; 1; 2; 0; 0; 1; 2; 0; 0];
       audioBpm := 120; audioTimeSignature := 4; audioVolume := DFin 1;
       sampleRate := 8; beatLength := 4; currentTick := 0;
       writeCursor := 0; playCursor := 0;
       playing := false; metronomeThread := false;
       hWaveOut := true; eventTickSink := false;
       waveOut := [waveOutSetVolume 4294967295]; tickEvents := [] |}.
Proof. vm_compute. reflexivity. Qed.

(** ** Sample conversion *)

Lemma byte_of_Z_to_N (b : byte) : byte_of_Z (Z.of_N (Byte.to_N b)) = b.
Proof.
  unfold byte_of_Z.
  pose proof (Byte.to_N_bounded b) as B.
  rewrite Z.mod_small by lia.
  rewrite N2Z.id, Byte.of_to_N. reflexivity.
Qed.

Lemma byte_of_Z_mod z : byte_of_Z (z mod 256) = byte_of_Z z.
Proof. unfold byte_of_Z. rewrite Z.mod_mod by lia. reflexivity. Qed.

Lemma bytes_of_sample_of_bytes lo hi :
  bytes_of_sample (sample_of_bytes lo hi) = [lo; hi].
Proof.
  unfold bytes_of_sample, sample_of_bytes.
  pose proof (Byte.to_N_bounded lo) as Bl.
  pose proof (Byte.to_N_bounded hi) as Bh.
  set (l := Z.of_N (Byte.to_N lo)). set (h := Z.of_N (Byte.to_N hi)).
  assert (Hl : 0 <= l < 256) by lia. assert (Hh : 0 <= h < 256) by lia.
  assert (E : (if l + 256 * h <? 32768 then l + 256 * h
               else l + 256 * h - 65536) mod 65536 = l + 256 * h).
  { destruct (Z.ltb_spec (l + 256 * h) 32768).
    - apply Z.mod_small. lia.
    - symmetry. apply (Z.mod_unique_pos _ _ (-1)); lia. }
  rewrite E.
  assert (E1 : byte_of_Z (l + 256 * h) = lo).
  { rewrite <- byte_of_Z_mod.
    replace ((l + 256 * h) mod 256) with l
      by (apply (Z.mod_unique_pos _ _ h); lia).
    apply byte_of_Z_to_N. }
  assert (E2 : (l + 256 * h) / 256 = h)
    by (symmetry; apply (Z.div_unique_pos _ _ h l); lia).
  rewrite E1, E2. unfold h. rewrite byte_of_Z_to_N. reflexivity.
Qed.

Lemma memcpy_shorts_ind (P : list byte -> Prop) :
  P [] -> (forall b, P [b]) ->
  (forall lo hi rest, P rest -> P (lo :: hi :: rest)) ->
  forall l, P l.
Proof.
  intros H0 H1 H2.
  assert (H : forall l, P l /\ forall b, P (b :: l)).
  { induction l as [| a l [IH1 IH2]]; split; auto. }
  intros l. apply H.
Qed.

Lemma memcpy_shorts_spec (x : list byte) :
  (length x mod 2 = 0)%nat ->
  length (memcpy_shorts x) = (length x / 2)%nat /\
  (forall i, (i < length x / 2)%nat ->
     exists lo hi, x !! (2 * i)%nat = Some lo /\ x !! (2 * i + 1)%nat = Some hi /\
                   memcpy_shorts x !! i = Some (sample_of_bytes lo hi)) /\
  shortArrayToByteArray (memcpy_shorts x) = x.
Proof.
  induction x as [| b | lo hi rest IH] using memcpy_shorts_ind; intros Hlen.
  - split; [reflexivity | split; [| reflexivity]].
    intros i Hi. cbn in Hi. lia.
  - discriminate.
  - cbn [length] in Hlen.
    assert (Hr : (length rest mod 2 = 0)%nat).
    { replace (S (S (length rest))) with (length rest + 1 * 2)%nat in Hlen by lia.
      rewrite Nat.Div0.mod_add in Hlen. exact Hlen. }
    destruct (IH Hr) as (L & Hs & R).
    assert (D : (length (lo :: hi :: rest) / 2 = length rest / 2 + 1)%nat).
    { cbn [length].
      replace (S (S (length rest))) with (length rest + 1 * 2)%nat by lia.
      rewrite Nat.div_add by lia. lia. }
    split; [| split].
    + rewrite D. cbn [memcpy_shorts length]. lia.
    + intros i Hi. rewrite D in Hi. destruct i as [| i].
      * exists lo, hi. split; [reflexivity | split; reflexivity].
      * destruct (Hs i ltac:(lia)) as (lo' & hi' & A & B & C).
        exists lo', hi'.
        replace (2 * S i)%nat with (S (S (2 * i))) by lia.
        cbn [Nat.add]. split; [exact A | split; [exact B | exact C]].
    + cbn [memcpy_shorts]. unfold shortArrayToByteArray in *.
      cbn [map concat]. rewrite R, bytes_of_sample_of_bytes. reflexivity.
Qed.

Lemma sample_of_bytes_of_sample v :
  - 32768 <= v < 32768 ->
  exists lo hi, bytes_of_sample v = [lo; hi] /\ sample_of_bytes lo hi = v.
Proof.
  intros Hv. unfold bytes_of_sample.
  set (u := v mod 65536).
  assert (Hu : 0 <= u < 65536) by (apply Z.mod_pos_bound; lia).
  assert (Hb : forall z, 0 <= z < 256 -> Z.of_N (Byte.to_N (byte_of_Z z)) = z).
  { intros z Hz. unfold byte_of_Z. rewrite Z.mod_small by lia.
    destruct (Byte.of_N (Z.to_N z)) as [b |] eqn:E.
    - apply Byte.to_of_N in E. rewrite E. lia.
    - apply Byte.of_N_None_iff in E. lia. }
  eexists _, _. split; [reflexivity |].
  unfold sample_of_bytes.
  assert (M : Z.of_N (Byte.to_N (byte_of_Z u)) = u mod 256).
  { rewrite <- byte_of_Z_mod. apply Hb, Z.mod_pos_bound. lia. }
  rewrite M, Hb.
  2:{ split; [apply Z.div_pos; lia | apply Z.div_lt_upper_bound; lia]. }
  rewrite Z.add_comm, <- Z.div_mod by lia.
  unfold u. destruct (Z.ltb_spec (v mod 65536) 32768) as [H | H].
  - destruct (Z.le_gt_cases 0 v).
    + apply Z.mod_small. lia.
    + assert (v mod 65536 = v + 65536)
        by (symmetry; apply (Z.mod_unique_pos _ _ (-1)); lia). lia.
  - destruct (Z.le_gt_cases 0 v).
    + rewrite Z.mod_small in H by lia. lia.
    + assert (v mod 65536 = v + 65536)
        by (symmetry; apply (Z.mod_unique_pos _ _ (-1)); lia). lia.
Qed.

Lemma memcpy_shorts_of_bytes (samples : list Z) :
  Forall (fun v => - 32768 <= v < 32768) samples ->
  memcpy_shorts (shortArrayToByteArray samples) = samples /\
  length (shortArrayToByteArray samples) = (2 * length samples)%nat.
Proof.
  induction 1 as [| v vs Hv _ [IH1 IH2]]; [split; reflexivity |].
  destruct (sample_of_bytes_of_sample v Hv) as (lo & hi & E & Es).
  unfold shortArrayToByteArray in *. cbn [map concat]. rewrite E.
  cbn [app memcpy_shorts length]. rewrite Es, IH1, IH2. split; [reflexivity | lia].
Qed.

(** C9 (as stated, refuted). The empty input has even length, and the
    conversion rejects it. *)
Lemma byteArrayToShortArray_empty :
  (length (@nil byte) mod 2 = 0)%nat /\
  byteArrayToShortArray []
    = inl (invalid_argument "Invalid byte array length for PCM_16BIT").
Proof. split; reflexivity. Qed.

(** C9 (amended). For a byte input that is not empty and has even length, the
    conversion returns [length / 2] samples, sample [i] being bytes [2i] (low)
    and [2i + 1] (high) read as a little-endian signed 16-bit value, and the
    bytes of those samples are the input again.  So the byte image of a
    non-empty sequence of 16-bit samples converts back to that sequence. *)
Theorem byteArrayToShortArray_round_trip (x : list byte) (samples : list Z) :
  (x <> [] -> (length x mod 2 = 0)%nat ->
   exists shorts,
     byteArrayToShortArray x = inr shorts /\
     length shorts = (length x / 2)%nat /\
     (forall i, (i < length x / 2)%nat ->
        exists lo hi,
          x !! (2 * i)%nat = Some lo /\ x !! (2 * i + 1)%nat = Some hi /\
          shorts !! i = Some (sample_of_bytes lo hi)) /\
     shortArrayToByteArray shorts = x) /\
  (samples <> [] -> Forall (fun v => - 32768 <= v < 32768) samples ->
   byteArrayToShortArray (shortArrayToByteArray samples) = inr samples).
Proof.
  split.
  - intros Hne Hlen. exists (memcpy_shorts x). unfold byteArrayToShortArray.
    destruct (decide _) as [[? | ?] | _]; [contradiction | contradiction |].
    split; [reflexivity | apply memcpy_shorts_spec, Hlen].
  - intros Hne Hr. destruct (memcpy_shorts_of_bytes samples Hr) as [E Len].
    unfold byteArrayToShortArray.
    destruct (decide _) as [[H | H] | _].
    + destruct samples; [contradiction |].
      apply (f_equal length) in H. rewrite Len in H. cbn in H. lia.
    + rewrite Len in H. exfalso. apply H.
      rewrite Nat.mul_comm. apply Nat.Div0.mod_mul.
    + rewrite E. reflexivity.
Qed.

Lemma byteArrayToShortArray_round_trip_witness :
  (exists shorts,
     byteArrayToShortArray [x01; x80; xff; x7f] = inr shorts /\
     length shorts = 2%nat /\
     shortArrayToByteArray shorts = [x01; x80; xff; x7f]) /\
  byteArrayToShortArray (shortArrayToByteArray [- 32767; 32767])
    = inr [- 32767; 32767].
Proof.
  destruct (byteArrayToShortArray_round_trip [x01; x80; xff; x7f] [- 32767; 32767])
    as [A B].
  split.
  - destruct A as (shorts & E & Len & _ & R); [discriminate | reflexivity |].
    exists shorts. split; [exact E | split; [exact Len | exact R]].
  - apply B; [discriminate |].
    repeat constructor; lia.
Defined.

(** ** Frame properties of the operations *)

(** The arithmetic stays folded while the operations are unfolded. *)
Arguments int_ok : simpl never.
Arguments wrap_int : simpl never.
Arguments to_int : simpl never.
Arguments to_dword : simpl never.
Arguments dmul : simpl never.
Arguments ddiv : simpl never.
Arguments of_int : simpl never.
Arguments dlt : simpl never.

Lemma fill_beats_frame L n : forall i b s,
  match fill_beats L n i b s with
  | Ok _ s' => s' = s
  | Throw _ _ => False
  | Crash => True
  end.
Proof.
  induction n as [| n IH]; intros i b s; cbn [fill_beats]; [reflexivity |].
  unfold copy_n. monad.
  destruct (i * L <? 0); [exact I |].
  destruct (copy_loop _ _ _ _); [apply IH | exact I].
Qed.

Lemma generateBuffer_frame s :
  match generateBuffer s with
  | Ok _ s' => exists L, s' = set_beatLength L s
  | Throw _ s' => s' = s
  | Crash => True
  end.
Proof.
  unfold generateBuffer, copy_n. monad.
  destruct (to_int _) as [L |]; [| exact I].
  destruct (audioTimeSignature s <? 2).
  - destruct (L <? 0); [reflexivity |]. cbn [Z.ltb Z.compare].
    destruct (copy_loop _ _ _ _); [eexists; reflexivity | exact I].
  - destruct (int_ok _); [| exact I].
    destruct (_ <? 0); [reflexivity |].
    pose proof (fill_beats_frame L (Z.to_nat (Z.max 1 (audioTimeSignature s))) 0
                  (replicate (Z.to_nat (L * Z.max 1 (audioTimeSignature s))) 0) s) as F.
    destruct (fill_beats _ _ _ _ _); [subst; eexists; reflexivity | contradiction | exact I].
Qed.

Lemma set_playing_same b s : playing s = b -> set_playing b s = s.
Proof. intros <-. destruct s; reflexivity. Qed.

(** [Play] sets the running flag and leaves the beat position alone, also
    when building the bar throws. *)
Lemma Play_effect s :
  match Play s with
  | Ok _ s' | Throw _ s' =>
      playing s' = true /\ currentTick s' = currentTick s /\
      audioTimeSignature s' = audioTimeSignature s
  | Crash => True
  end.
Proof.
  unfold Play. monad. destruct (playing s) eqn:P; cbn [negb]; [cbn; auto |].
  pose proof (generateBuffer_frame (set_playing true s)) as F.
  destruct (generateBuffer _) as [b s' | e s' |]; [| subst; cbn; auto | exact I].
  destruct F as [L ->]. cbn.
  destruct (hWaveOut s); cbn; destruct (metronomeThread s); cbn; auto.
Qed.

(** ** Idempotent transitions *)

(** C7. [Play()] on a playing engine returns with the state untouched (flag,
    thread, cursors, buffer, device log), so two calls in a row end in the
    state of one; [Stop()] and [Pause()] on a stopped engine return with the
    state untouched. *)
Theorem Play_Stop_Pause_idempotent (s : Metronome) :
  (playing s = true -> Play s = Ok tt s) /\
  (Play >> Play) s = Play s /\
  (playing s = false -> Stop s = Ok tt s /\ Pause s = Ok tt s).
Proof.
  split; [| split].
  - intros P. unfold Play. monad. rewrite P. cbn [negb].
    rewrite (set_playing_same _ _ P). reflexivity.
  - pose proof (Play_effect s) as P. unfold bind at 1.
    destruct (Play s) as [[] s' | e s' |]; try reflexivity.
    destruct P as [P _]. unfold Play. monad. rewrite P. cbn [negb].
    rewrite (set_playing_same _ _ P). reflexivity.
  - intros P. unfold Stop, Pause. monad. rewrite P.
    rewrite (set_playing_same _ _ P). split; reflexivity.
Qed.

Lemma Play_Stop_Pause_idempotent_witness :
  Play (ticking 120 4 44100) = Ok tt (ticking 120 4 44100) /\
  Stop (stopped 120 4 44100) = Ok tt (stopped 120 4 44100) /\
  Pause (stopped 120 4 44100) = Ok tt (stopped 120 4 44100).
Proof.
  split.
  - apply (Play_Stop_Pause_idempotent (ticking 120 4 44100)); reflexivity.
  - apply (Play_Stop_Pause_idempotent (stopped 120 4 44100)); reflexivity.
Defined.

(** ** Volume *)

Lemma SetVolume_out_of_range v s :
  dlt v (DFin 0) || dlt (DFin 1) v = true ->
  SetVolume v s = Throw volume_error s.
Proof. intros H. unfold SetVolume. rewrite H. reflexivity. Qed.

Lemma SetVolume_in_range v s :
  dlt v (DFin 0) || dlt (DFin 1) v = false ->
  SetVolume v s =
    if hWaveOut s then
      match to_dword (dmul (DFin 65535) v) with
      | Some vol =>
          Ok tt (set_waveOut
                   (waveOut s ++
                      [waveOutSetVolume (Z.lor vol (Z.shiftl vol 16 mod 2 ^ 32))])
                   (set_audioVolume v s))
      | None => Crash
      end
    else Ok tt (set_audioVolume v s).
Proof.
  intros H. unfold SetVolume. rewrite H. monad. cbn [hWaveOut set_audioVolume].
  destruct (hWaveOut s) eqn:E; [| reflexivity].
  destruct (to_dword _); [| reflexivity].
  cbn [hWaveOut set_audioVolume]. rewrite E. reflexivity.
Qed.

Lemma dlt_unit_interval q :
  (0 <= q)%Q -> (q <= 1)%Q ->
  dlt (DFin q) (DFin 0) || dlt (DFin 1) (DFin q) = false.
Proof.
  intros H0 H1. unfold dlt.
  apply Qle_bool_iff in H0, H1. rewrite H0, H1. reflexivity.
Qed.

(** C8. [SetVolume(v)] throws its range error exactly when [v < 0.0] or
    [v > 1.0]; every value of the closed interval, the bounds [0.0] and [1.0]
    included, is accepted; an accepted volume is stored and, the device being
    open, sent to it as a [waveOutSetVolume] call, while the running flag, the
    producer thread and every other field stay as they were. *)
Theorem SetVolume_range (v : double) (s : Metronome) :
  ((exists s', SetVolume v s = Throw volume_error s') <->
   (dlt v (DFin 0) = true \/ dlt (DFin 1) v = true)) /\
  (exists s0 s1, SetVolume (DFin 0) s = Ok tt s0 /\ SetVolume (DFin 1) s = Ok tt s1) /\
  (forall q, (0 <= q)%Q -> (q <= 1)%Q -> exists s', SetVolume (DFin q) s = Ok tt s') /\
  (forall s', SetVolume v s = Ok tt s' ->
     audioVolume s' = v /\
     playing s' = playing s /\ metronomeThread s' = metronomeThread s /\
     (hWaveOut s = false -> s' = set_audioVolume v s) /\
     (hWaveOut s = true ->
      exists vol,
        to_dword (dmul (DFin 65535) v) = Some vol /\
        s' = set_waveOut
               (waveOut s ++
                  [waveOutSetVolume (Z.lor vol (Z.shiftl vol 16 mod 2 ^ 32))])
               (set_audioVolume v s))).
Proof.
  assert (A : forall q, (0 <= q)%Q -> (q <= 1)%Q ->
                exists s', SetVolume (DFin q) s = Ok tt s').
  { intros q H0 H1. rewrite SetVolume_in_range by (apply dlt_unit_interval; assumption).
    destruct (hWaveOut s); [| eexists; reflexivity].
    destruct (volume_word q H0 H1) as (w & -> & _). eexists; reflexivity. }
  split; [| split; [| split]].
  - destruct (dlt v (DFin 0) || dlt (DFin 1) v) eqn:E.
    + rewrite (SetVolume_out_of_range v s E).
      apply orb_true_iff in E. split; [intros _; exact E | intros _; eexists; reflexivity].
    + rewrite (SetVolume_in_range v s E). apply orb_false_iff in E. destruct E as [E0 E1].
      split.
      * intros [s' H]. destruct (hWaveOut s); [destruct (to_dword _) |]; discriminate.
      * intros [H | H]; congruence.
  - destruct (A 0%Q) as [s0 H0]; [discriminate | discriminate |].
    destruct (A 1%Q) as [s1 H1]; [discriminate | discriminate |].
    exists s0, s1. split; assumption.
  - exact A.
  - intros s' H.
    destruct (dlt v (DFin 0) || dlt (DFin 1) v) eqn:E.
    + rewrite (SetVolume_out_of_range v s E) in H. discriminate.
    + rewrite (SetVolume_in_range v s E) in H.
      destruct (hWaveOut s).
      * destruct (to_dword _) as [vol |]; [| discriminate].
        injection H as <-. repeat split; try discriminate.
        intros _. exists vol. split; reflexivity.
      * injection H as <-. repeat split; try discriminate.
Qed.

Lemma SetVolume_range_witness :
  (exists s', SetVolume (round64 (- 1 # 10)) (stopped 120 4 44100)
              = Throw volume_error s') /\
  (exists s', SetVolume (DFin (3 # 2)) (stopped 120 4 44100)
              = Throw volume_error s') /\
  (exists s', SetVolume (DFin (1 # 2)) (stopped 120 4 44100) = Ok tt s').
Proof.
  split; [| split].
  - apply (SetVolume_range (round64 (- 1 # 10)) (stopped 120 4 44100)).
    left. vm_compute. reflexivity.
  - apply (SetVolume_range (DFin (3 # 2)) (stopped 120 4 44100)).
    right. vm_compute. reflexivity.
  - apply (SetVolume_range (DFin 0) (stopped 120 4 44100)); discriminate.
Defined.

(** C10. A [SetVolume(v)] that fails leaves the engine exactly as it was: the
    range test throws before the volume field is written and before the
    device is called, so the state carried by the exception is the state of
    the call. *)
Theorem SetVolume_failure_atomic (v : double) (s : Metronome) :
  (dlt v (DFin 0) = true \/ dlt (DFin 1) v = true ->
   SetVolume v s = Throw volume_error s) /\
  (forall e s', SetVolume v s = Throw e s' ->
     s' = s /\ audioVolume s' = audioVolume s /\ waveOut s' = waveOut s).
Proof.
  split.
  - intros H. apply SetVolume_out_of_range, orb_true_iff, H.
  - intros e s' H.
    destruct (dlt v (DFin 0) || dlt (DFin 1) v) eqn:E.
    + rewrite (SetVolume_out_of_range v s E) in H. injection H as _ <-. auto.
    + rewrite (SetVolume_in_range v s E) in H.
      destruct (hWaveOut s); [destruct (to_dword _) |]; discriminate.
Qed.

Lemma SetVolume_failure_atomic_witness :
  SetVolume (DFin (3 # 2)) (stopped 120 4 44100)
    = Throw volume_error (stopped 120 4 44100).
Proof.
  apply (SetVolume_failure_atomic (DFin (3 # 2)) (stopped 120 4 44100)).
  right. vm_compute. reflexivity.
Defined.

(** ** Bar buffer *)

(** A copy that stays inside both arrays overwrites [n] cells from [off] and
    nothing else. *)
Lemma copy_loop_spec n : forall (src dst : list Z) off,
  (n <= length src)%nat -> (off + n <= length dst)%nat ->
  exists dst',
    copy_loop src n dst off = Some dst' /\
    length dst' = length dst /\
    forall p, dst' !! p =
              if decide (off <= p < off + n)%nat then src !! (p - off)%nat
              else dst !! p.
Proof.
  induction n as [| n IH]; intros src dst off Hs Hd; cbn [copy_loop].
  - exists dst. split; [reflexivity | split; [reflexivity |]].
    intros p. case_decide; [lia | reflexivity].
  - destruct src as [| x src]; [cbn in Hs; lia |]. cbn [length] in Hs.
    destruct (decide (off < length dst)%nat) as [Ho | Ho]; [| lia].
    destruct (IH src (<[off := x]> dst) (S off)) as (dst' & E & Len & Look).
    { lia. }
    { rewrite length_insert. lia. }
    rewrite length_insert in Len.
    exists dst'. split; [exact E | split; [exact Len |]].
    intros p. rewrite Look.
    destruct (decide (p = off)) as [-> | Hp].
    + rewrite decide_False by lia. rewrite decide_True by lia.
      rewrite list_lookup_insert_eq by exact Ho.
      replace (off - off)%nat with 0%nat by lia. reflexivity.
    + rewrite list_lookup_insert_ne by congruence.
      destruct (decide (S off <= p < S off + n)%nat) as [H | H].
      * rewrite decide_True by lia.
        replace (p - off)%nat with (S (p - S off)) by lia. reflexivity.
      * rewrite decide_False by lia. reflexivity.
Qed.

Lemma copy_n_spec (src dst : list Z) (n off : Z) (s : Metronome) :
  0 <= off -> 0 <= n <= Z.of_nat (length src) ->
  off + n <= Z.of_nat (length dst) ->
  exists dst',
    copy_n src n dst off s = Ok dst' s /\
    length dst' = length dst /\
    forall p : nat,
      dst' !! p =
      if decide (off <= Z.of_nat p < off + n)
      then src !! Z.to_nat (Z.of_nat p - off) else dst !! p.
Proof.
  intros Ho Hn Hd. unfold copy_n.
  destruct (Z.ltb_spec off 0) as [? | _]; [lia |].
  destruct (copy_loop_spec (Z.to_nat n) src dst (Z.to_nat off))
    as (dst' & E & Len & Look); [lia | lia |].
  rewrite E. exists dst'. split; [reflexivity | split; [exact Len |]].
  intros p. rewrite Look.
  destruct (decide (off <= Z.of_nat p < off + n)) as [H | H].
  - rewrite decide_True by lia. f_equal. lia.
  - rewrite decide_False by lia. reflexivity.
Qed.

Lemma copy_loop_length n : forall (src dst : list Z) off dst',
  copy_loop src n dst off = Some dst' -> length dst' = length dst.
Proof.
  induction n as [| n IH]; intros src dst off dst'; cbn [copy_loop].
  - congruence.
  - destruct src as [| x src]; [discriminate |].
    destruct (decide _); [| discriminate].
    intros H. apply IH in H. rewrite length_insert in H. exact H.
Qed.

Lemma copy_n_length src n dst off s dst' s' :
  copy_n src n dst off s = Ok dst' s' -> length dst' = length dst.
Proof.
  unfold copy_n. monad. destruct (off <? 0); [discriminate |].
  destruct (copy_loop _ _ _ _) eqn:E; [| discriminate].
  intros H. injection H as <- _. eapply copy_loop_length, E.
Qed.

Lemma wrap_int_small z : INT_MIN <= z <= INT_MAX -> wrap_int z = z.
Proof.
  unfold INT_MIN, INT_MAX, wrap_int. intros H.
  rewrite Z.mod_small; lia.
Qed.

Lemma size_int_fits (v : list Z) :
  Z.of_nat (length v) <= INT_MAX -> size_int v = Z.of_nat (length v).
Proof.
  unfold size_int, INT_MAX. intros H.
  apply wrap_int_small. unfold INT_MIN, INT_MAX. lia.
Qed.

Section Bar.

Variable s : Metronome.
Variable L : Z.
Hypothesis L_nonneg : 0 <= L.
Hypothesis main_fits : Z.of_nat (length (mainSound s)) <= INT_MAX.
Hypothesis accent_fits : Z.of_nat (length (accentedSound s)) <= INT_MAX.

(** Samples copied into a slot of [L] samples from the waveform of beat [k]. *)
Let copied (k : Z) : Z := Z.min L (Z.of_nat (length (beat_sound s k))).

Lemma beat_sound_fits k : Z.of_nat (length (beat_sound s k)) <= INT_MAX.
Proof. unfold beat_sound. destruct (k =? 0); assumption. Qed.

Lemma fill_beats_spec n : forall i (buf : list Z),
  0 <= i -> (i + Z.of_nat n) * L <= Z.of_nat (length buf) ->
  exists buf',
    fill_beats L n i buf s = Ok buf' s /\
    length buf' = length buf /\
    (forall k j, i <= k < i + Z.of_nat n -> 0 <= j < copied k ->
       buf' !! Z.to_nat (k * L + j) = beat_sound s k !! Z.to_nat j) /\
    (forall p : nat,
       (forall k j, i <= k < i + Z.of_nat n -> 0 <= j < copied k ->
          Z.of_nat p <> k * L + j) ->
       buf' !! p = buf !! p).
Proof.
  induction n as [| n IH]; intros i buf Hi Hlen; cbn [fill_beats].
  - exists buf. split; [reflexivity | split; [reflexivity | split]].
    + intros k j Hk. lia.
    + reflexivity.
  - monad. fold (beat_sound s i).
    rewrite (size_int_fits _ (beat_sound_fits i)). fold (copied i).
    assert (Hc : 0 <= copied i <= L) by (unfold copied; lia).
    destruct (copy_n_spec (beat_sound s i) buf (copied i) (i * L) s)
      as (b1 & -> & Len1 & Look1); [nia | unfold copied; lia | nia |].
    destruct (IH (i + 1) b1) as (buf' & E & Len & Ha & Hb); [lia | rewrite Len1; nia |].
    exists buf'. split; [exact E | split; [congruence | split]].
    + intros k j Hk Hj.
      destruct (Z.eq_dec k i) as [-> | Hne].
      * rewrite Hb.
        -- rewrite Look1, decide_True by lia. f_equal. lia.
        -- intros k' j' Hk' Hj'.
           assert (0 <= copied k' <= L) by (unfold copied; lia). nia.
      * apply Ha; lia.
    + intros p Hp. rewrite Hb.
      * rewrite Look1, decide_False; [reflexivity |].
        intros Hin. apply (Hp i (Z.of_nat p - i * L)); lia.
      * intros k j Hk Hj. apply Hp; lia.
Qed.

End Bar.

Lemma to_int_beat rate bpm :
  0 <= rate <= INT_MAX -> 0 < bpm <= INT_MAX -> rate * 60 / bpm <= INT_MAX ->
  to_int (ddiv (dmul (of_int rate) (DFin 60)) (of_int bpm)) = Some (rate * 60 / bpm).
Proof.
  intros Hr Hb Hq.
  destruct (beat_quotient rate bpm ltac:(unfold INT_MAX in Hr; lia) Hb)
    as (q & -> & E).
  unfold to_int. rewrite E.
  assert (0 <= rate * 60 / bpm) by (apply Z.div_pos; lia).
  destruct (Z.leb_spec INT_MIN (rate * 60 / bpm)); [| unfold INT_MIN in *; lia].
  destruct (Z.leb_spec (rate * 60 / bpm) INT_MAX); [reflexivity | lia].
Qed.

(** The layout left by the loop over a silent bar. *)
Lemma fill_beats_layout (s : Metronome) (L : Z) (bar : list Z) :
  0 <= L -> 2 <= audioTimeSignature s ->
  Z.of_nat (length (mainSound s)) <= INT_MAX ->
  Z.of_nat (length (accentedSound s)) <= INT_MAX ->
  fill_beats L (Z.to_nat (audioTimeSignature s)) 0
    (replicate (Z.to_nat (L * audioTimeSignature s)) 0) s = Ok bar s ->
  bar_layout s L bar.
Proof.
  intros HL Ht Hm Ha B.
  destruct (fill_beats_spec s L HL Hm Ha (Z.to_nat (audioTimeSignature s)) 0
              (replicate (Z.to_nat (L * audioTimeSignature s)) 0))
    as (bar' & E & Len & Hcopy & Hrest); [lia | rewrite length_replicate; nia |].
  rewrite B in E. injection E as <-.
  rewrite length_replicate in Len.
  assert (Hc : forall k, 0 <= Z.min L (Z.of_nat (length (beat_sound s k))) <= L)
    by (intros k; lia).
  split; [lia |]. intros i Hi n. subst n. split.
  - intros j Hj. apply Hcopy; [lia | exact Hj].
  - intros j Hj. pose proof (Hc i). rewrite Hrest.
    + apply lookup_replicate_2.
      assert (0 <= i * L) by nia.
      assert ((i + 1) * L <= audioTimeSignature s * L)
        by (apply Z.mul_le_mono_nonneg_r; lia).
      lia.
    + intros k' j' Hk' Hj'. pose proof (Hc k').
      destruct (Z.lt_trichotomy k' i) as [Hlt | [-> | Hgt]]; [| lia |].
      * assert ((k' + 1) * L <= i * L) by (apply Z.mul_le_mono_nonneg_r; lia). lia.
      * assert ((i + 1) * L <= k' * L) by (apply Z.mul_le_mono_nonneg_r; lia). lia.
Qed.

(** With at least two beats per bar the bar is built whenever its length fits
    an [int]. *)
Lemma generateBuffer_beats (s : Metronome) :
  let L := sampleRate s * 60 / audioBpm s in
  0 <= sampleRate s <= INT_MAX -> 0 < audioBpm s <= INT_MAX ->
  2 <= audioTimeSignature s -> L * audioTimeSignature s <= INT_MAX ->
  Z.of_nat (length (mainSound s)) <= INT_MAX ->
  Z.of_nat (length (accentedSound s)) <= INT_MAX ->
  exists bar,
    generateBuffer s = Ok bar (set_beatLength L s) /\
    Z.of_nat (length bar) = L * audioTimeSignature s.
Proof.
  intros L Hr Hb Ht Hfit Hm Ha.
  assert (HL : 0 <= L) by (apply Z.div_pos; lia).
  assert (HL' : L <= INT_MAX) by nia.
  unfold generateBuffer. monad. rewrite to_int_beat by assumption. fold L.
  destruct (Z.ltb_spec (audioTimeSignature s) 2) as [? | _]; [lia |].
  rewrite Z.max_r by lia.
  assert (Hok : int_ok (L * audioTimeSignature s) = true).
  { unfold int_ok. apply andb_true_iff.
    split; apply Z.leb_le; [unfold INT_MIN; nia | lia]. }
  rewrite Hok.
  destruct (Z.ltb_spec (L * audioTimeSignature s) 0) as [? | _]; [nia |].
  destruct (fill_beats_spec s L HL Hm Ha (Z.to_nat (audioTimeSignature s)) 0
              (replicate (Z.to_nat (L * audioTimeSignature s)) 0))
    as (bar & -> & Len & _); [lia | rewrite length_replicate; nia |].
  rewrite length_replicate in Len.
  exists bar. split; [reflexivity | lia].
Qed.

(** The bar of an engine without accent (time signature below 2). *)
Lemma generateBuffer_single (s : Metronome) :
  let L := sampleRate s * 60 / audioBpm s in
  let copied := Z.min L (Z.of_nat (length (mainSound s))) in
  0 <= sampleRate s <= INT_MAX -> 0 < audioBpm s <= INT_MAX ->
  audioTimeSignature s < 2 -> L <= INT_MAX ->
  Z.of_nat (length (mainSound s)) <= INT_MAX ->
  exists bar,
    generateBuffer s = Ok bar (set_beatLength L s) /\
    Z.of_nat (length bar) = L /\
    (forall j, 0 <= j < copied -> bar !! Z.to_nat j = mainSound s !! Z.to_nat j) /\
    (forall j, copied <= j < L -> bar !! Z.to_nat j = Some 0).
Proof.
  intros L copied Hr Hb Ht Hfit Hm.
  assert (HL : 0 <= L) by (apply Z.div_pos; lia).
  unfold generateBuffer. monad. rewrite to_int_beat by assumption. fold L.
  destruct (Z.ltb_spec (audioTimeSignature s) 2) as [_ | ?]; [| lia].
  destruct (Z.ltb_spec L 0) as [? | _]; [lia |].
  rewrite (size_int_fits _ Hm). fold copied.
  destruct (copy_n_spec (mainSound s) (replicate (Z.to_nat L) 0) copied 0 s)
    as (bar & -> & Len & Look);
    [lia | unfold copied; lia | rewrite length_replicate; unfold copied; lia |].
  rewrite length_replicate in Len.
  exists bar. split; [reflexivity | split; [lia | split]].
  - intros j Hj. rewrite Look, decide_True by lia. f_equal. lia.
  - intros j Hj. rewrite Look, decide_False by lia.
    apply lookup_replicate_2. lia.
Qed.

Lemma to_int_beat_signed rate bpm L :
  INT_MIN <= rate <= INT_MAX -> 0 < bpm <= INT_MAX ->
  to_int (ddiv (dmul (of_int rate) (DFin 60)) (of_int bpm)) = Some L ->
  L = Z.quot (rate * 60) bpm.
Proof.
  intros Hr Hb.
  destruct (beat_quotient_signed rate bpm Hr Hb) as (q & -> & E).
  unfold to_int. rewrite E. destruct (_ && _); congruence.
Qed.

(** What a successful [generateBuffer] went through. *)
Lemma generateBuffer_inv (s : Metronome) bar s' :
  generateBuffer s = Ok bar s' ->
  exists L,
    to_int (ddiv (dmul (of_int (sampleRate s)) (DFin 60)) (of_int (audioBpm s)))
      = Some L /\
    s' = set_beatLength L s /\ 0 <= L /\
    if audioTimeSignature s <? 2
    then copy_n (mainSound s) (Z.min L (size_int (mainSound s)))
           (replicate (Z.to_nat L) 0) 0 s = Ok bar s
    else int_ok (L * Z.max 1 (audioTimeSignature s)) = true /\
         fill_beats L (Z.to_nat (Z.max 1 (audioTimeSignature s))) 0
           (replicate (Z.to_nat (L * Z.max 1 (audioTimeSignature s))) 0) s
         = Ok bar s.
Proof.
  unfold generateBuffer. monad.
  destruct (to_int _) as [L |]; [| discriminate].
  intros H. exists L. split; [reflexivity |].
  destruct (audioTimeSignature s <? 2).
  - destruct (Z.ltb_spec L 0) as [? | HL]; [discriminate |].
    destruct (copy_n _ _ _ _ s) as [b s1 | |] eqn:E; try discriminate.
    assert (s1 = s).
    { unfold copy_n in E. monad. destruct (0 <? 0); [discriminate |].
      destruct (copy_loop _ _ _ _); congruence. }
    subst s1. injection H as <- <-. auto.
  - destruct (int_ok _) eqn:Hok; [| discriminate].
    destruct (Z.ltb_spec (L * Z.max 1 (audioTimeSignature s)) 0) as [? | HL];
      [discriminate |].
    pose proof (fill_beats_frame L (Z.to_nat (Z.max 1 (audioTimeSignature s))) 0
                  (replicate (Z.to_nat (L * Z.max 1 (audioTimeSignature s))) 0) s) as F.
    destruct (fill_beats _ _ _ _ s) as [b s1 | |]; try discriminate.
    subst s1. injection H as <- <-.
    split; [reflexivity | split; [nia | split; reflexivity]].
Qed.

(** C1. With two or more beats per bar, the bar [generateBuffer] builds is
    [beatLength * beatsPerBar] samples long; the slot of beat [i] starts with
    the first [min(beatLength, size)] samples of its waveform (the accent for
    beat 0, the main sound for the others) and is silent after them, so a
    waveform never reaches the next slot.  The bar is built for every rate
    and tempo whose beat length and bar length fit an [int]. *)
Theorem generateBuffer_bar_layout (s : Metronome) :
  2 <= audioTimeSignature s ->
  Z.of_nat (length (mainSound s)) <= INT_MAX ->
  Z.of_nat (length (accentedSound s)) <= INT_MAX ->
  (forall bar s', generateBuffer s = Ok bar s' -> bar_layout s (beatLength s') bar) /\
  (0 < audioBpm s <= INT_MAX -> 0 <= sampleRate s <= INT_MAX ->
   sampleRate s * 60 / audioBpm s * audioTimeSignature s <= INT_MAX ->
   exists bar s', generateBuffer s = Ok bar s').
Proof.
  intros Ht Hm Ha. split.
  - intros bar s' H.
    destruct (generateBuffer_inv s bar s' H) as (L & _ & -> & HL & B).
    destruct (Z.ltb_spec (audioTimeSignature s) 2) as [? | _]; [lia |].
    destruct B as [_ B]. rewrite Z.max_r in B by lia.
    apply fill_beats_layout; assumption.
  - intros Hb Hr Hfit.
    destruct (generateBuffer_beats s Hr Hb Ht Hfit Hm Ha) as (bar & E & _).
    eexists _, _. exact E.
Qed.

Lemma generateBuffer_bar_layout_witness :
  exists bar s',
    generateBuffer (stopped 120 4 8) = Ok bar s' /\
    bar_layout (stopped 120 4 8) (beatLength s') bar.
Proof.
  destruct (generateBuffer_bar_layout (stopped 120 4 8)) as [A B];
    [cbn; lia | cbn; unfold INT_MAX; lia | cbn; unfold INT_MAX; lia |].
  destruct B as (bar & s' & E);
    [cbn; unfold INT_MAX; lia | cbn; unfold INT_MAX; lia
    | vm_compute; discriminate |].
  exists bar, s'. split; [exact E | exact (A bar s' E)].
Defined.

(** ** Beat length *)

(** C2 (as stated, refuted). At 44100 Hz and 130 beats per minute the engine
    is built with a beat of 20353 samples, while the quotient 20353.846... is
    nearer to 20354. *)
Lemma beat_length_130bpm_not_nearest :
  beatLength <$> after (new_Metronome click accent 130 1 (DFin 1) 44100 0)
    = Some 20353 /\
  ~ nearest_integer (44100 * 60) 130 20353.
Proof.
  split; [vm_compute; reflexivity |].
  intros H. specialize (H 20354). vm_compute in H. apply H. reflexivity.
Qed.

(** C2 (amended). For a tempo [bpm > 0], the beat length set when the bar is
    built is the quotient [sampleRate * 60 / bpm] truncated toward zero, that
    is rounded down for a rate that is not negative; with a time signature
    below 2 the bar is exactly that long, and it is built whenever the beat
    length fits an [int]. *)
Theorem generateBuffer_beat_length (s : Metronome) :
  0 < audioBpm s <= INT_MAX -> INT_MIN <= sampleRate s <= INT_MAX ->
  (forall bar s', generateBuffer s = Ok bar s' ->
     beatLength s' = Z.quot (sampleRate s * 60) (audioBpm s) /\
     (0 <= sampleRate s ->
      audioBpm s * beatLength s' <= sampleRate s * 60
        < audioBpm s * (beatLength s' + 1)) /\
     (audioTimeSignature s < 2 -> Z.of_nat (length bar) = beatLength s')) /\
  (0 <= sampleRate s -> audioTimeSignature s < 2 ->
   sampleRate s * 60 / audioBpm s <= INT_MAX ->
   Z.of_nat (length (mainSound s)) <= INT_MAX ->
   exists bar s', generateBuffer s = Ok bar s').
Proof.
  intros Hb Hr. split.
  - intros bar s' H.
    destruct (generateBuffer_inv s bar s' H) as (L & E & -> & HL & B).
    apply (to_int_beat_signed _ _ _ Hr Hb) in E.
    cbn [beatLength set_beatLength]. split; [exact E | split].
    + intros Hr0. rewrite E, Z.quot_div_nonneg by lia.
      pose proof (Z.div_mod (sampleRate s * 60) (audioBpm s) ltac:(lia)).
      pose proof (Z.mod_pos_bound (sampleRate s * 60) (audioBpm s) ltac:(lia)).
      lia.
    + intros Ht. destruct (Z.ltb_spec (audioTimeSignature s) 2) as [_ | ?]; [| lia].
      apply copy_n_length in B. rewrite B, length_replicate. lia.
  - intros Hr0 Ht Hfit Hm.
    destruct (generateBuffer_single s ltac:(lia) Hb Ht Hfit Hm) as (bar & E & _).
    eexists _, _. exact E.
Qed.

Lemma generateBuffer_beat_length_witness :
  exists bar s',
    generateBuffer (stopped 130 1 44100) = Ok bar s' /\
    beatLength s' = 20353 /\ Z.of_nat (length bar) = 20353.
Proof.
  destruct (generateBuffer_beat_length (stopped 130 1 44100)) as [A B];
    [cbn; unfold INT_MAX; lia | cbn; unfold INT_MIN, INT_MAX; lia |].
  destruct B as (bar & s' & E);
    [cbn; lia | cbn; lia | vm_compute; discriminate | cbn; unfold INT_MAX; lia |].
  exists bar, s'. destruct (A bar s' E) as (H1 & _ & H3).
  split; [exact E | split; [exact H1 |]].
  rewrite H3 by (cbn; lia). exact H1.
Defined.

(** ** Completion callback *)

Lemma OnBufferDone_no_sink s :
  eventTickSink s = false ->
  OnBufferDone s = Ok tt (set_playCursor (playCursor s + beatLength s) s).
Proof.
  intros H. unfold OnBufferDone. monad. cbn.
  rewrite H. reflexivity.
Qed.

Lemma OnBufferDone_sink s :
  eventTickSink s = true ->
  let s1 := set_playCursor (playCursor s + beatLength s) s in
  OnBufferDone s =
    if audioTimeSignature s <? 2 then Ok tt (delivered 0 s1)
    else if int_ok (currentTick s + 1)
         then Ok tt (delivered
                       (if audioTimeSignature s <=? currentTick s + 1 then 0
                        else currentTick s + 1) s1)
         else Crash.
Proof.
  intros H s1. subst s1. unfold OnBufferDone, delivered. monad. cbn.
  rewrite H. cbn. destruct (audioTimeSignature s <? 2); cbn; [reflexivity |].
  destruct (int_ok _); reflexivity.
Qed.

Lemma next_tick_mod t n :
  2 <= n -> 0 <= t < n ->
  (if n <=? t + 1 then 0 else t + 1) = (t + 1) mod n.
Proof.
  intros Hn Ht. destruct (Z.leb_spec n (t + 1)).
  - assert (t + 1 = n) by lia. replace (t + 1) with (1 * n) by lia.
    rewrite Z.mod_mul; lia.
  - rewrite Z.mod_small; lia.
Qed.

Lemma OnBufferDone_in_bar s :
  eventTickSink s = true ->
  2 <= audioTimeSignature s <= INT_MAX ->
  0 <= currentTick s < audioTimeSignature s ->
  OnBufferDone s =
    Ok tt (delivered ((currentTick s + 1) mod audioTimeSignature s)
             (set_playCursor (playCursor s + beatLength s) s)).
Proof.
  intros Hs Hn Ht. rewrite (OnBufferDone_sink s Hs).
  destruct (Z.ltb_spec (audioTimeSignature s) 2); [lia |].
  assert (Hok : int_ok (currentTick s + 1) = true).
  { unfold int_ok. apply andb_true_iff.
    split; apply Z.leb_le; [unfold INT_MIN |]; lia. }
  rewrite Hok, next_tick_mod by lia. reflexivity.
Qed.

(** [n] completions in a row on a playing engine with a tick sink. *)
Lemma completions_sink n : forall s,
  playing s = true -> eventTickSink s = true ->
  2 <= audioTimeSignature s <= INT_MAX ->
  0 <= currentTick s < audioTimeSignature s ->
  exists s',
    run (replicate n OpDone) s = Some s' /\
    playCursor s' = playCursor s + Z.of_nat n * beatLength s /\
    currentTick s' = (currentTick s + Z.of_nat n) mod audioTimeSignature s /\
    tickEvents s' =
      tickEvents s ++
      map (fun k => (currentTick s + Z.of_nat k) mod audioTimeSignature s) (seq 1 n).
Proof.
  induction n as [| n IH]; intros s Hp Hs Hn Ht.
  - exists s. cbn [replicate run seq map].
    rewrite Z.add_0_r, Z.mod_small, app_nil_r by lia.
    repeat split; lia.
  - cbn [replicate run exec WaveOutProc]. monad. rewrite Hp.
    rewrite (OnBufferDone_in_bar s Hs Hn Ht). cbn [after].
    set (t := (currentTick s + 1) mod audioTimeSignature s).
    assert (Ht' : 0 <= t < audioTimeSignature s) by (apply Z.mod_pos_bound; lia).
    destruct (IH (delivered t (set_playCursor (playCursor s + beatLength s) s)))
      as (s' & E & Hc & Hk & Hev); try assumption.
    cbn in Hc, Hk, Hev. exists s'. split; [exact E | split; [| split]].
    + rewrite Hc. lia.
    + rewrite Hk. unfold t. rewrite Zplus_mod_idemp_l. f_equal. lia.
    + rewrite Hev, <- app_assoc. f_equal. cbn [app seq map].
      rewrite <- (seq_shift n 1), map_map. f_equal.
      apply map_ext. intros k. unfold t. rewrite Zplus_mod_idemp_l. f_equal. lia.
Qed.

(** [n] completions in a row on a playing engine without tick sink. *)
Lemma completions_no_sink n : forall s,
  playing s = true -> eventTickSink s = false ->
  exists s',
    run (replicate n OpDone) s = Some s' /\
    playCursor s' = playCursor s + Z.of_nat n * beatLength s /\
    currentTick s' = currentTick s /\ tickEvents s' = tickEvents s.
Proof.
  induction n as [| n IH]; intros s Hp Hs.
  - exists s. cbn [replicate run]. repeat split; lia.
  - cbn [replicate run exec WaveOutProc]. monad. rewrite Hp.
    rewrite (OnBufferDone_no_sink s Hs). cbn [after].
    destruct (IH (set_playCursor (playCursor s + beatLength s) s))
      as (s' & E & Hc & Hk & Hev); try assumption.
    cbn in Hc, Hk, Hev. exists s'. repeat split; try assumption. lia.
Qed.

Lemma Play_starts (s : Metronome) (L : Z) :
  L = sampleRate s * 60 / audioBpm s ->
  playing s = false -> metronomeThread s = false ->
  0 <= sampleRate s <= INT_MAX -> 0 < audioBpm s <= INT_MAX ->
  2 <= audioTimeSignature s -> L * audioTimeSignature s <= INT_MAX ->
  Z.of_nat (length (mainSound s)) <= INT_MAX ->
  Z.of_nat (length (accentedSound s)) <= INT_MAX ->
  exists s',
    Play s = Ok tt s' /\
    playing s' = true /\ metronomeThread s' = true /\ beatLength s' = L /\
    Z.of_nat (length (audioBuffer s')) = L * audioTimeSignature s /\
    currentTick s' = currentTick s /\ playCursor s' = playCursor s /\
    writeCursor s' = writeCursor s /\
    audioTimeSignature s' = audioTimeSignature s /\
    eventTickSink s' = eventTickSink s /\ tickEvents s' = tickEvents s.
Proof.
  intros -> Hp Hth Hr Hb Ht Hfit Hm Ha.
  destruct (generateBuffer_beats (set_playing true s) Hr Hb Ht Hfit Hm Ha)
    as (bar & E & Len).
  cbn [sampleRate audioBpm audioTimeSignature set_playing] in E, Len.
  unfold Play. monad. rewrite Hp. cbn [negb]. rewrite E. cbn.
  destruct (hWaveOut s); cbn; rewrite Hth; cbn;
    (eexists; split; [reflexivity | cbn; tauto]).
Qed.

(** C3 (as stated, refuted). With no tick sink registered, a completion on
    the playing four-beat engine leaves the beat index at 0, not at
    [(0 + 1) mod 4]. *)
Lemma completion_without_sink_keeps_index :
  currentTick <$> run_from demo [OpPlay; OpDone] = Some 0 /\
  (0 + 1) mod 4 <> 0.
Proof. split; [vm_compute; reflexivity | discriminate]. Qed.

(** C3 (amended). On a completion while playing, the handler adds the beat
    length to the play cursor in every case.  With a tick sink registered it
    then sets the beat index to 0 for a time signature below 2 and to
    [(index + 1) mod beatsPerBar] for an index inside the bar, and delivers
    that index; with no sink registered it leaves the index alone and
    delivers nothing.  At 120 beats per minute, four beats per bar and
    44100 Hz, [Play()] on a stopped engine whose counters are 0, followed by
    four completions, ends with the beat index back at 0 and the play cursor
    at 88200. *)
Theorem completion_updates (s s0 : Metronome) :
  (playing s = true ->
   let s1 := set_playCursor (playCursor s + beatLength s) s in
   (eventTickSink s = false -> WaveOutProc WOM_DONE s = Ok tt s1) /\
   (eventTickSink s = true -> audioTimeSignature s < 2 ->
    WaveOutProc WOM_DONE s = Ok tt (delivered 0 s1)) /\
   (eventTickSink s = true -> 2 <= audioTimeSignature s <= INT_MAX ->
    0 <= currentTick s < audioTimeSignature s ->
    WaveOutProc WOM_DONE s =
      Ok tt (delivered ((currentTick s + 1) mod audioTimeSignature s) s1))) /\
  (audioBpm s0 = 120 -> audioTimeSignature s0 = 4 -> sampleRate s0 = 44100 ->
   playing s0 = false -> metronomeThread s0 = false ->
   playCursor s0 = 0 -> currentTick s0 = 0 ->
   Z.of_nat (length (mainSound s0)) <= INT_MAX ->
   Z.of_nat (length (accentedSound s0)) <= INT_MAX ->
   exists s',
     run (OpPlay :: replicate 4 OpDone) s0 = Some s' /\
     currentTick s' = 0 /\ playCursor s' = 88200).
Proof.
  split.
  - intros Hp s1. subst s1. unfold WaveOutProc. monad. rewrite Hp.
    split; [| split].
    + apply OnBufferDone_no_sink.
    + intros Hs Ht. rewrite (OnBufferDone_sink s Hs).
      destruct (Z.ltb_spec (audioTimeSignature s) 2); [reflexivity | lia].
    + apply OnBufferDone_in_bar.
  - intros Hb Ht Hr Hp Hth Hc Hk Hm Ha.
    destruct (Play_starts s0 22050)
      as (s1 & E & Hp1 & _ & HL & _ & Hk1 & Hc1 & _ & Ht1 & Hs1 & _);
      try assumption; rewrite ?Hb, ?Ht, ?Hr;
      try reflexivity; try (unfold INT_MAX; lia).
    cbn [run exec]. rewrite E. cbn [after].
    destruct (eventTickSink s1) eqn:Hsink.
    + destruct (completions_sink 4 s1) as (s' & R & Hpc & Htk & _);
        try assumption; rewrite ?Ht1, ?Hk1, ?Ht, ?Hk; try (unfold INT_MAX; lia).
      exists s'. split; [exact R | split].
      * rewrite Htk, Hk1, Hk, Ht1, Ht. reflexivity.
      * rewrite Hpc, Hc1, Hc, HL. reflexivity.
    + destruct (completions_no_sink 4 s1) as (s' & R & Hpc & Htk & _); try assumption.
      exists s'. split; [exact R | split].
      * rewrite Htk, Hk1, Hk. reflexivity.
      * rewrite Hpc, Hc1, Hc, HL. reflexivity.
Qed.

Lemma completion_updates_witness :
  WaveOutProc WOM_DONE (ticking 120 4 44100)
    = Ok tt (delivered 1 (set_playCursor 22050 (ticking 120 4 44100))) /\
  exists s',
    run (OpPlay :: replicate 4 OpDone) (stopped 120 4 44100) = Some s' /\
    currentTick s' = 0 /\ playCursor s' = 88200.
Proof.
  destruct (completion_updates (ticking 120 4 44100) (stopped 120 4 44100))
    as [A B].
  split.
  - destruct (A eq_refl) as (_ & _ & C).
    apply C; [reflexivity | cbn; unfold INT_MAX; lia | cbn; lia].
  - apply B; try reflexivity; cbn; unfold INT_MAX; lia.
Defined.

(** C4 (as stated, refuted). On the freshly started four-beat engine the
    first notification carries index 1, not 0. *)
Lemma first_tick_is_one :
  tickEvents <$> run_from demo [OpEnableTickCallback true; OpPlay; OpDone]
    = Some [1].
Proof. vm_compute. reflexivity. Qed.

(** C4 (amended). With four beats per bar and a tick sink registered, from a
    playing engine whose beat index is 0 the indices delivered over [n]
    completions are [1, 2, 3, 0, 1, 2, 3, 0, ...]: the [k]-th notification
    carries [k mod 4], so the first carries 1 and each next one is the
    successor modulo 4 of the one before. *)
Theorem tick_sequence (s : Metronome) (n : nat) :
  playing s = true -> eventTickSink s = true ->
  audioTimeSignature s = 4 -> currentTick s = 0 ->
  exists s',
    run (replicate n OpDone) s = Some s' /\
    tickEvents s' = tickEvents s ++ map (fun k => Z.of_nat k mod 4) (seq 1 n) /\
    currentTick s' = Z.of_nat n mod 4.
Proof.
  intros Hp Hs Ht Hk.
  destruct (completions_sink n s) as (s' & R & _ & Htk & Hev);
    try assumption; rewrite ?Ht, ?Hk; try (unfold INT_MAX; lia).
  rewrite Ht, Hk in *. exists s'. split; [exact R | split; assumption].
Qed.

Lemma tick_sequence_witness :
  exists s',
    run (replicate 8 OpDone) (ticking 120 4 44100) = Some s' /\
    tickEvents s' = [1; 2; 3; 0; 1; 2; 3; 0] /\ currentTick s' = 0.
Proof.
  destruct (tick_sequence (ticking 120 4 44100) 8) as (s' & R & E & K);
    try reflexivity.
  exists s'. split; [exact R | split; [exact E | exact K]].
Defined.

(** ** Stopping and the cursors *)

Lemma Pause_effect s :
  exists s',
    Pause s = Ok tt s' /\ playing s' = false /\
    audioTimeSignature s' = audioTimeSignature s /\
    (playing s = true ->
     currentTick s' = 0 /\ writeCursor s' = 0 /\ playCursor s' = 0) /\
    (playing s = false -> s' = s).
Proof.
  unfold Pause. monad. destruct (playing s) eqn:P; cbn.
  - destruct (hWaveOut s); cbn; destruct (metronomeThread s); cbn;
      (eexists; split; [reflexivity | cbn; repeat split; congruence]).
  - exists (set_playing false s).
    rewrite (set_playing_same _ _ P). repeat split; congruence.
Qed.

Lemma Stop_effect s :
  exists s',
    Stop s = Ok tt s' /\ playing s' = false /\
    currentTick s' = currentTick s /\ writeCursor s' = writeCursor s /\
    playCursor s' = playCursor s.
Proof.
  unfold Stop. monad. destruct (playing s) eqn:P; cbn.
  - destruct (hWaveOut s); cbn; destruct (metronomeThread s); cbn;
      (eexists; split; [reflexivity | cbn; repeat split]).
  - eexists; split; [reflexivity | cbn; repeat split].
Qed.

(** C5 (the code departs from the claim). [Pause()] zeroes the write cursor,
    the play cursor and the beat index, [Stop()] keeps all three: after
    [Play()], one pass of the producer and [Stop()] the write cursor is 22050,
    and the first fragment written after the next [Play()] starts with the
    main click [1; 2] of the second beat's slot, where the fragment of a
    first [Play()] starts with the accent [9] at offset 0. *)
Theorem Stop_keeps_write_cursor :
  writeCursor <$> run_from demo [OpPlay; OpProducer true true; OpPause] = Some 0 /\
  writeCursor <$> run_from demo [OpPlay; OpProducer true true; OpStop] = Some 22050 /\
  last_fragment_start 2 <$> run_from demo [OpPlay; OpProducer true true]
  = Some (Some [9; 0]) /\
  last_fragment_start 2 <$>
    run_from demo [OpPlay; OpProducer true true; OpStop; OpPlay; OpProducer true true]
  = Some (Some [1; 2]).
Proof. split; [| split; [| split]]; vm_compute; reflexivity. Qed.

(** ** Beat index inside the bar *)

(** C6 (the code departs from the claim). Three completions, [Stop()], then a
    change to two beats per bar leave the beat index at 3 with a bar of 2:
    for that state [beat_in_bar] reads [0 <= 3 < 2]. *)
Theorem Stop_then_signature_breaks_bar :
  (fun s => (currentTick s, audioTimeSignature s)) <$>
    run_from demo [OpEnableTickCallback true; OpPlay; OpDone; OpDone; OpDone;
                   OpStop; OpSetTimeSignature 2]
  = Some (3, 2) /\
  beat_in_bar <$>
    run_from demo [OpEnableTickCallback true; OpPlay; OpDone; OpDone; OpDone;
                   OpStop; OpSetTimeSignature 2]
  = Some (0 <= 3 < 2).
Proof. split; vm_compute; reflexivity. Qed.

Lemma beat_in_bar_zero s : currentTick s = 0 -> beat_in_bar s.
Proof.
  intros H. unfold beat_in_bar. rewrite H.
  destruct (Z.ltb_spec (audioTimeSignature s) 2); lia.
Qed.

Lemma beat_ok_zero s : currentTick s = 0 -> beat_ok s.
Proof. intros H. split; [intros _; exact H | apply beat_in_bar_zero, H]. Qed.

Lemma beat_ok_view s s' :
  playing s' = playing s -> currentTick s' = currentTick s ->
  audioTimeSignature s' = audioTimeSignature s ->
  beat_ok s -> beat_ok s'.
Proof.
  unfold beat_ok, beat_in_bar. intros -> -> ->. tauto.
Qed.

Lemma Play_beat_ok s s' :
  after (Play s) = Some s' -> beat_in_bar s -> beat_ok s'.
Proof.
  intros H B. pose proof (Play_effect s) as P.
  destruct (Play s) as [[] s1 | e s1 |]; cbn in H; try discriminate;
    injection H as <-; destruct P as (Pp & Pt & Ps);
    (split; [congruence | unfold beat_in_bar in *; rewrite Pt, Ps; exact B]).
Qed.

Lemma keeps_ret {A} (a : A) : keeps (ret a).
Proof. intros s. cbn. auto. Qed.

Lemma keeps_throw {A} e : keeps (@throw A e).
Proof. intros s. cbn. auto. Qed.

Lemma keeps_get {A} (f : Metronome -> A) : keeps (get f).
Proof. intros s. cbn. auto. Qed.

Lemma keeps_modify f :
  (forall s, playing (f s) = playing s /\ currentTick (f s) = currentTick s) ->
  keeps (modify f).
Proof. intros H s. cbn. apply H. Qed.

Lemma keeps_bind {A B} (m : M A) (k : A -> M B) :
  keeps m -> (forall a, keeps (k a)) -> keeps (bind m k).
Proof.
  intros Hm Hk s. unfold bind. specialize (Hm s).
  destruct (m s) as [a s1 | e s1 |]; [| exact Hm | exact I].
  specialize (Hk a s1). destruct (k a s1); [| | exact I];
    destruct Hm, Hk; split; congruence.
Qed.

Lemma keeps_when b m : keeps m -> keeps (when b m).
Proof. intros H. destruct b; [exact H | apply keeps_ret]. Qed.

Lemma keeps_lift r : keeps (lift r).
Proof. destruct r; [apply keeps_throw | apply keeps_ret]. Qed.

Lemma keeps_device c : keeps (device c).
Proof. intros s. unfold device. destruct (hWaveOut s); cbn; auto. Qed.

Lemma keeps_generateBuffer : keeps generateBuffer.
Proof.
  intros s. pose proof (generateBuffer_frame s) as F.
  destruct (generateBuffer s) as [b s' | e s' |]; [| subst; auto | exact I].
  destruct F as [L ->]. cbn. auto.
Qed.

Lemma keeps_SetVolume v : keeps (SetVolume v).
Proof.
  intros s. destruct (dlt v (DFin 0) || dlt (DFin 1) v) eqn:E.
  - rewrite (SetVolume_out_of_range _ _ E). auto.
  - rewrite (SetVolume_in_range _ _ E).
    destruct (hWaveOut s); [destruct (to_dword _) |]; cbn; auto.
Qed.

Create HintDb keeps.

#[local] Hint Resolve keeps_ret keeps_throw keeps_get keeps_lift keeps_device
  keeps_generateBuffer keeps_SetVolume keeps_when keeps_bind : keeps.

#[local] Hint Extern 1 (keeps (modify _)) =>
  apply keeps_modify; intros; cbn; split; reflexivity : keeps.

Lemma keeps_construct m a r : keeps (construct m a r).
Proof.
  unfold construct, InitializeAudio.
  destruct (is_empty m); [apply keeps_throw |].
  destruct (is_empty a), (negb (r =? 0)); auto 20 with keeps.
Qed.

Lemma new_Metronome_beat_ok m a bpm n v rate r s :
  new_Metronome m a bpm n v rate r = Ok tt s -> beat_ok s.
Proof.
  unfold new_Metronome. intros H.
  pose proof (keeps_construct m a r (blank bpm n v rate)) as K.
  rewrite H in K. cbn in K. apply beat_ok_zero. apply K.
Qed.

(** The shape of the three setters: pause a playing engine, change a
    parameter, play again. *)
Lemma restart_beat_ok (change : M unit) s s' :
  keeps change ->
  beat_ok s ->
  after ((let* wasPlaying := IsPlaying in
          when wasPlaying Pause >> change >> when wasPlaying Play) s) = Some s' ->
  beat_ok s'.
Proof.
  intros Hc [H0 _]. monad.
  destruct (Pause_effect s) as (s1 & E & P1 & _ & T1 & Q1).
  destruct (playing s) eqn:P.
  - rewrite E. destruct (T1 eq_refl) as (T & _).
    pose proof (Hc s1) as C.
    destruct (change s1) as [[] s2 | e s2 |]; cbn [after]; try discriminate.
    + destruct C as [_ C]. pose proof (Play_effect s2) as Pe.
      destruct (Play s2) as [[] s3 | e s3 |]; cbn [after]; try discriminate;
        intros H; injection H as <-; apply beat_ok_zero; destruct Pe as (_ & -> & _);
        congruence.
    + intros H. injection H as <-. apply beat_ok_zero. destruct C. congruence.
  - pose proof (Hc s) as C.
    destruct (change s) as [[] s2 | e s2 |]; cbn [after]; try discriminate;
      intros H; injection H as <-; apply beat_ok_zero; destruct C as [_ ->]; auto.
Qed.

Lemma exec_beat_ok o s s' :
  o <> OpStop -> beat_ok s -> after (exec o s) = Some s' -> beat_ok s'.
Proof.
  intros Ho Hs. destruct o; cbn [exec]; try congruence; clear Ho.
  - intros H. eapply Play_beat_ok; [exact H | apply Hs].
  - destruct (Pause_effect s) as (s1 & -> & P1 & S1 & T1 & Q1). cbn [after].
    intros H. injection H as <-. destruct (playing s) eqn:P.
    + apply beat_ok_zero, T1. reflexivity.
    + rewrite (Q1 eq_refl). exact Hs.
  - unfold SetBPM. unfold bind at 1, get at 1, when at 1.
    destruct (negb _); [| cbn; intros H; injection H as <-; exact Hs].
    apply restart_beat_ok; [auto with keeps | exact Hs].
  - unfold SetTimeSignature. unfold bind at 1, get at 1, when at 1.
    destruct (negb _); [| cbn; intros H; injection H as <-; exact Hs].
    apply restart_beat_ok; [auto with keeps | exact Hs].
  - intros H. destruct (dlt volume (DFin 0) || dlt (DFin 1) volume) eqn:E.
    + rewrite (SetVolume_out_of_range _ _ E) in H. injection H as <-. exact Hs.
    + rewrite (SetVolume_in_range _ _ E) in H.
      destruct (hWaveOut s); [destruct (to_dword _) |]; cbn in H; try discriminate;
        injection H as <-; (eapply beat_ok_view; [.. | exact Hs]); reflexivity.
  - unfold SetAudioFile. unfold when at 1.
    destruct (_ || _); [| cbn; intros H; injection H as <-; exact Hs].
    intros H.
    apply (restart_beat_ok
             (when (negb (is_empty mainFileBytes))
                (let* v := lift (byteArrayToShortArray mainFileBytes) in
                 modify (set_mainSound v)) >>
              when (negb (is_empty accentedFileBytes))
                (let* v := lift (byteArrayToShortArray accentedFileBytes) in
                 modify (set_accentedSound v))) s s'); [| exact Hs |].
    + auto 10 with keeps.
    + rewrite <- H. f_equal. cbv [IsPlaying bind get].
      destruct (when (playing s) Pause s) as [[] s1 | |]; try reflexivity.
      match goal with
      | |- context [when ?b ?m s1] => destruct (when b m s1) as [[] s2 | |]
      end; reflexivity.
  - cbn. intros H. injection H as <-. eapply beat_ok_view; [.. | exact Hs]; reflexivity.
  - unfold StartMetronome_step, PlaySound, slice. monad.
    destruct (metronomeThread s); [| cbn; intros H; injection H as <-; exact Hs].
    destruct (playing s) eqn:P; [| cbn; intros H; injection H as <-; exact Hs].
    repeat match goal with
           | |- context [if ?c then _ else _] => destruct c; cbn
           end;
      try discriminate;
      intros H; injection H as <-; (eapply beat_ok_view; [.. | exact Hs]); cbn; auto.
  - unfold WaveOutProc. monad.
    destruct (playing s) eqn:P; [| cbn; intros H; injection H as <-; exact Hs].
    destruct (eventTickSink s) eqn:Hsink.
    + rewrite (OnBufferDone_sink s Hsink). destruct Hs as [_ B].
      unfold beat_in_bar in B.
      destruct (Z.ltb_spec (audioTimeSignature s) 2) as [Hlt | Hge].
      * cbn. intros H. injection H as <-. apply beat_ok_zero. reflexivity.
      * destruct (int_ok _); cbn; [| discriminate].
        intros H. injection H as <-. split; [cbn; congruence |].
        unfold beat_in_bar. cbn.
        destruct (Z.ltb_spec (audioTimeSignature s) 2); [lia |].
        destruct (Z.leb_spec (audioTimeSignature s) (currentTick s + 1)); lia.
    + rewrite (OnBufferDone_no_sink s Hsink). cbn. intros H. injection H as <-.
      eapply beat_ok_view; [.. | exact Hs]; reflexivity.
Qed.

(** Without [Stop], the beat index stays inside the bar on every run. *)
Lemma run_without_Stop_in_bar ops : forall s s',
  Forall (fun o => o <> OpStop) ops ->
  beat_ok s -> run ops s = Some s' -> beat_in_bar s'.
Proof.
  induction ops as [| o ops IH]; intros s s' Hf Hs; cbn [run].
  - intros H. injection H as <-. apply Hs.
  - inversion Hf as [| ? ? Ho Hrest]; subst.
    destruct (after (exec o s)) as [s1 |] eqn:E; [| discriminate].
    apply IH; [exact Hrest | eapply exec_beat_ok; eassumption].
Qed.

(** Every state reached from a constructed engine without calling [Stop] has
    its beat index inside the bar. *)
Lemma engine_beat_in_bar m a bpm n v rate r s0 ops s' :
  new_Metronome m a bpm n v rate r = Ok tt s0 ->
  Forall (fun o => o <> OpStop) ops ->
  run ops s0 = Some s' -> beat_in_bar s'.
Proof.
  intros H0 Hf Hr. eapply run_without_Stop_in_bar; [exact Hf | | exact Hr].
  eapply new_Metronome_beat_ok, H0.
Qed.

(** * Further properties of the engine *)

(** Decides a closed arithmetic side condition by evaluation. *)
Ltac evaluate :=
  vm_compute; repeat split; try reflexivity; try (intro; discriminate).

(** ** Building the bar and starting *)

(** The bar is built for every time signature once the tempo is positive and
    the lengths fit an [int]. *)
Lemma generateBuffer_runs (s : Metronome) :
  0 <= sampleRate s <= INT_MAX -> 0 < audioBpm s <= INT_MAX ->
  sampleRate s * 60 / audioBpm s * Z.max 1 (audioTimeSignature s) <= INT_MAX ->
  Z.of_nat (length (mainSound s)) <= INT_MAX ->
  Z.of_nat (length (accentedSound s)) <= INT_MAX ->
  exists bar,
    generateBuffer s = Ok bar (set_beatLength (sampleRate s * 60 / audioBpm s) s) /\
    Z.of_nat (length bar)
      = sampleRate s * 60 / audioBpm s * Z.max 1 (audioTimeSignature s).
Proof.
  intros Hr Hb Hfit Hm Ha.
  assert (HL : 0 <= sampleRate s * 60 / audioBpm s) by (apply Z.div_pos; lia).
  destruct (Z.lt_ge_cases (audioTimeSignature s) 2) as [Ht | Ht].
  - rewrite Z.max_l in * by lia. rewrite Z.mul_1_r in *.
    destruct (generateBuffer_single s Hr Hb Ht Hfit Hm) as (bar & E & Len & _).
    exists bar. split; assumption.
  - rewrite Z.max_r in * by lia.
    apply (generateBuffer_beats s Hr Hb Ht Hfit Hm Ha).
Qed.

Lemma Play_started (s : Metronome) bar L :
  playing s = false -> metronomeThread s = false ->
  generateBuffer (set_playing true s)
    = Ok bar (set_beatLength L (set_playing true s)) ->
  Play s = Ok tt (started bar L s).
Proof.
  intros Hp Ht E. unfold Play, started. monad. rewrite Hp. cbn [negb].
  rewrite E. cbn. destruct (hWaveOut s); cbn; rewrite Ht; reflexivity.
Qed.

(** ** The producer *)

Lemma slice_ok (v : list Z) (from n : Z) (s : Metronome) :
  0 <= from -> 0 <= n -> from + n <= Z.of_nat (length v) ->
  slice v from n s = Ok (take (Z.to_nat n) (drop (Z.to_nat from) v)) s.
Proof.
  intros Hf Hn Hl. unfold slice.
  destruct (Z.ltb_spec from 0); [lia|].
  destruct (Z.ltb_spec n 0); [lia|].
  destruct (Z.ltb_spec (Z.of_nat (length v)) (from + n)); [lia|].
  reflexivity.
Qed.

Lemma PlaySound_pass (prepared written : bool) (s : Metronome) :
  let size := Z.of_nat (length (audioBuffer s)) in
  let start := writeCursor s mod size in
  let c := Z.min (beatLength s) (size - start) in
  playing s = true -> 0 <= writeCursor s ->
  0 <= beatLength s <= size -> 0 < size <= INT_MAX ->
  PlaySound prepared written s
    = Ok tt (produced prepared written
               (take (Z.to_nat c) (drop (Z.to_nat start) (audioBuffer s)) ++
                if c <? beatLength s
                then take (Z.to_nat (beatLength s - c)) (audioBuffer s)
                else []) s).
Proof.
  intros size start c Hp Hc HL Hs.
  assert (Hst : 0 <= start < size) by (apply Z.mod_pos_bound; lia).
  unfold PlaySound. cbv [IsPlaying bind get when]. rewrite Hp.
  destruct (Z.ltb_spec (beatLength s) 0); [lia|].
  fold size. destruct (Z.eqb_spec size 0); [lia|].
  fold start. rewrite (wrap_int_small (size - start)) by (unfold INT_MIN, INT_MAX in *; lia).
  fold c.
  rewrite (slice_ok (audioBuffer s) start c) by (fold size; lia).
  destruct (Z.ltb_spec c (beatLength s)).
  - rewrite (slice_ok (audioBuffer s) 0) by (fold size; lia). cbn [drop Z.to_nat].
    unfold produced, modify, device, ret. cbn.
    destruct (prepared && written); cbn; [|reflexivity].
    destruct (hWaveOut s); reflexivity.
  - unfold produced, modify, device, ret. cbn.
    destruct (prepared && written); cbn; [|reflexivity].
    destruct (hWaveOut s); reflexivity.
Qed.

(** X1. A pass of the producer on a playing engine hands the device exactly
    [beatLength] samples read cyclically from the bar at the write cursor
    (sample [j] of the fragment is sample [(writeCursor + j) mod size] of the
    bar), and advances the write cursor by [beatLength]; the cursor advances
    even when the device refuses the fragment, which is then logged
    nowhere.  The tempo is not zero: an accepted pass ends by sleeping
    [60000 / audioBpm] milliseconds. *)
Theorem PlaySound_cyclic_fragment (prepared written : bool) (s : Metronome) :
  let size := Z.of_nat (length (audioBuffer s)) in
  playing s = true -> audioBpm s <> 0 -> 0 <= writeCursor s ->
  0 <= beatLength s <= size -> 0 < size <= INT_MAX ->
  exists fragment,
    PlaySound prepared written s
      = Ok tt (produced prepared written fragment s) /\
    Z.of_nat (length fragment) = beatLength s /\
    (forall j, 0 <= j < beatLength s ->
       fragment !! Z.to_nat j
         = audioBuffer s !! Z.to_nat ((writeCursor s + j) mod size)) /\
    writeCursor (produced prepared written fragment s)
      = writeCursor s + beatLength s /\
    (prepared && written = false ->
     waveOut (produced prepared written fragment s) = waveOut s).
Proof.
  intros size Hp _ Hc HL Hs.
  pose proof (PlaySound_pass prepared written s Hp Hc HL Hs) as E.
  cbv zeta in E. fold size in E.
  set (start := writeCursor s mod size) in *.
  set (c := Z.min (beatLength s) (size - start)) in *.
  assert (Hst : 0 <= start < size) by (apply Z.mod_pos_bound; lia).
  assert (Hc0 : 0 <= c <= beatLength s) by lia.
  set (head := take (Z.to_nat c) (drop (Z.to_nat start) (audioBuffer s))) in *.
  assert (Hh : length head = Z.to_nat c).
  { unfold head. rewrite length_take, length_drop. unfold size in *. lia. }
  eexists. split; [exact E|]. split; [|split; [|split]].
  - rewrite length_app, Hh. destruct (Z.ltb_spec c (beatLength s)).
    + rewrite length_take. unfold size in *. lia.
    + cbn. lia.
  - intros j Hj. destruct (Z.lt_ge_cases j c) as [Hjc | Hjc].
    + rewrite lookup_app_l by lia. unfold head.
      rewrite lookup_take_lt by lia. rewrite lookup_drop.
      f_equal. replace ((writeCursor s + j) mod size) with (start + j); [lia|].
      apply Z.mod_unique with (q := writeCursor s / size); [lia|].
      unfold start. rewrite Z.mod_eq by lia. lia.
    + rewrite lookup_app_r by lia. rewrite Hh.
      destruct (Z.ltb_spec c (beatLength s)); [|lia].
      rewrite lookup_take_lt by lia.
      f_equal. replace ((writeCursor s + j) mod size) with (start + j - size); [lia|].
      apply Z.mod_unique with (q := writeCursor s / size + 1); [lia|].
      unfold start. rewrite Z.mod_eq by lia. lia.
  - unfold produced. cbv zeta.
    destruct (prepared && written && hWaveOut s); reflexivity.
  - intros Hr. unfold produced. rewrite Hr. reflexivity.
Qed.

Lemma PlaySound_cyclic_fragment_witness :
  exists fragment,
    PlaySound true true (set_writeCursor 14 rolling)
      = Ok tt (produced true true fragment (set_writeCursor 14 rolling)) /\
    fragment = [0; 0; 9; 0].
Proof.
  destruct (PlaySound_cyclic_fragment true true (set_writeCursor 14 rolling))
    as (fragment & E & Len & At & _); [evaluate ..|].
  exists fragment. split; [exact E|].
  assert (Len' : length fragment = 4%nat) by (apply Nat2Z.inj; exact Len).
  destruct fragment as [|a [|b [|c [|d [|e fragment]]]]]; try discriminate Len'.
  pose proof (At 0 ltac:(evaluate)) as A0. pose proof (At 1 ltac:(evaluate)) as A1.
  pose proof (At 2 ltac:(evaluate)) as A2. pose proof (At 3 ltac:(evaluate)) as A3.
  vm_compute in A0, A1, A2, A3. congruence.
Defined.

Lemma PlaySound_slot (prepared written : bool) (s : Metronome) (n c : Z) :
  playing s = true -> 0 < beatLength s -> 1 <= n ->
  Z.of_nat (length (audioBuffer s)) = beatLength s * n ->
  beatLength s * n <= INT_MAX ->
  0 <= c -> writeCursor s = c * beatLength s ->
  PlaySound prepared written s
    = Ok tt (produced prepared written
               (slot (audioBuffer s) (beatLength s) (c mod n)) s).
Proof.
  intros Hp HL Hn Hlen Hfit Hc Hw.
  assert (Hm : 0 <= c mod n < n) by (apply Z.mod_pos_bound; lia).
  assert (Hstart : writeCursor s mod Z.of_nat (length (audioBuffer s))
                   = c mod n * beatLength s).
  { rewrite Hlen, Hw, (Z.mul_comm (beatLength s) n).
    apply Z.mul_mod_distr_r; lia. }
  rewrite PlaySound_pass; [| assumption | nia | nia | nia].
  rewrite Hstart, Hlen.
  replace (Z.min (beatLength s) (beatLength s * n - c mod n * beatLength s))
    with (beatLength s) by nia.
  rewrite Z.ltb_irrefl, app_nil_r. reflexivity.
Qed.

(** X2. On a playing engine whose bar holds [n] beats and whose write cursor
    stands at the start of a beat, [k] passes of the producer hand the device
    the slots of the bar in order, wrapping after the last one: pass [i]
    sends slot [(c + i) mod n], and the cursor ends [k] beats further.  The
    tempo is not zero, as each pass sleeps [60000 / audioBpm] milliseconds. *)
Theorem producer_walks_the_bar (k : nat) : forall (s : Metronome) (n c : Z),
  playing s = true -> metronomeThread s = true -> hWaveOut s = true ->
  audioBpm s <> 0 -> 0 < beatLength s -> 1 <= n ->
  Z.of_nat (length (audioBuffer s)) = beatLength s * n ->
  beatLength s * n <= INT_MAX ->
  0 <= c -> writeCursor s = c * beatLength s ->
  exists s',
    run (replicate k (OpProducer true true)) s = Some s' /\
    waveOut s'
      = waveOut s ++
        map (fun i => waveOutWrite
                        (slot (audioBuffer s) (beatLength s)
                           ((c + Z.of_nat i) mod n)))
            (seq 0 k) /\
    writeCursor s' = (c + Z.of_nat k) * beatLength s.
Proof.
  induction k as [| k IH]; intros s n c Hp Ht Hw Hbpm HL Hn Hlen Hfit Hc Hwc.
  - exists s. cbn. rewrite app_nil_r, Z.add_0_r. auto.
  - cbn [replicate run exec]. unfold StartMetronome_step.
    cbv [bind get when]. rewrite Ht.
    rewrite (PlaySound_slot true true s n c) by assumption.
    cbn [after]. unfold produced. cbv zeta. rewrite Hw. cbn [andb].
    set (s1 := set_waveOut _ _).
    destruct (IH s1 n (c + 1)) as (s' & R & W & C);
      try assumption; try lia.
    { cbn. lia. }
    exists s'. split; [exact R|]. split.
    + rewrite W. cbn [seq map]. rewrite <- (seq_shift k 0), map_map.
      unfold s1. cbn [waveOut set_waveOut audioBuffer beatLength set_writeCursor].
      rewrite <- app_assoc. cbn [app]. rewrite Z.add_0_r.
      do 2 f_equal. apply map_ext. intros i. do 3 f_equal. lia.
    + rewrite C. cbn. lia.
Qed.

Lemma producer_walks_the_bar_witness :
  exists s',
    run (replicate 5 (OpProducer true true)) rolling = Some s' /\
    waveOut s'
      = map waveOutWrite
          [[9; 0; 0; 0]; [1; 2; 0; 0]; [1; 2; 0; 0]; [1; 2; 0; 0]; [9; 0; 0; 0]].
Proof.
  destruct (producer_walks_the_bar 5 rolling 4 0) as (s' & R & W & _);
    [evaluate ..|].
  exists s'. split; [exact R | exact W].
Defined.

(** ** Tempos outside the usable range *)

(** X3. A tempo above [sampleRate * 60] beats per minute gives beats of zero
    samples: [Play] succeeds with an empty bar, and the first pass of the
    producer thread divides by the size of that bar, which is zero. *)
Theorem zero_length_beat_crashes (prepared written : bool) (s : Metronome) :
  playing s = false -> metronomeThread s = false ->
  0 <= sampleRate s <= INT_MAX ->
  sampleRate s * 60 < audioBpm s <= INT_MAX ->
  Z.of_nat (length (mainSound s)) <= INT_MAX ->
  Z.of_nat (length (accentedSound s)) <= INT_MAX ->
  Play s = Ok tt (started [] 0 s) /\
  StartMetronome_step prepared written (started [] 0 s) = Crash /\
  run [OpPlay; OpProducer prepared written] s = None.
Proof.
  intros Hp Ht Hr Hb Hm Ha.
  assert (HL : sampleRate s * 60 / audioBpm s = 0) by (apply Z.div_small; lia).
  destruct (generateBuffer_runs (set_playing true s)) as (bar & E & Len);
    cbn [sampleRate audioBpm audioTimeSignature mainSound accentedSound set_playing] in *;
    try assumption; try lia.
  rewrite HL in *. destruct bar; [|cbn in Len; lia].
  assert (P : Play s = Ok tt (started [] 0 s)) by (apply Play_started; assumption).
  assert (C : StartMetronome_step prepared written (started [] 0 s) = Crash).
  { unfold StartMetronome_step, PlaySound, started.
    cbv [bind get when IsPlaying]. destruct (hWaveOut s); reflexivity. }
  split; [exact P|]. split; [exact C|].
  cbn [run exec]. rewrite P. cbn [after]. rewrite C. reflexivity.
Qed.

Lemma zero_length_beat_crashes_witness :
  run [OpPlay; OpProducer true true] (stopped 500 4 8) = None.
Proof.
  apply (zero_length_beat_crashes true true (stopped 500 4 8)); evaluate.
Defined.


Lemma ddiv_opp_r x c :
  Qzero_bool c = false -> ddiv x (DFin (- c)) = dneg (ddiv x (DFin c)).
Proof.
  intros Hc. destruct x as [a | b |]; unfold ddiv; cbn [dneg].
  - rewrite Qzero_bool_opp, Hc. rewrite <- round64_opp.
    apply round64_proper.
    assert (N : ~ (c == 0)%Q).
    { unfold Qzero_bool in Hc. apply Z.eqb_neq in Hc.
      unfold Qeq. cbn. lia. }
    field. exact N.
  - rewrite Qneg_bool_opp by exact Hc. destruct b, (Qneg_bool c); reflexivity.
  - reflexivity.
Qed.

(** With a negative tempo the quotient is negative as well, truncated toward
    zero. *)
Lemma beat_quotient_negative sr bpm :
  INT_MIN <= sr <= INT_MAX -> INT_MIN < bpm < 0 ->
  exists q, ddiv (dmul (of_int sr) (DFin 60)) (of_int bpm) = DFin q /\
            trunc q = Z.quot (sr * 60) bpm.
Proof.
  intros Hs Hb.
  destruct (beat_quotient_signed sr (- bpm) Hs) as (q & E & T).
  { unfold INT_MIN, INT_MAX in *. lia. }
  exists (- q)%Q. split.
  - replace bpm with (- - bpm) at 1 by lia. rewrite of_int_opp.
    destruct (of_int_exact (- bpm)) as (c & Ec & Eq).
    { unfold INT_MIN in *. lia. }
    rewrite Ec in *. cbn [dneg].
    rewrite ddiv_opp_r, E; [reflexivity|].
    unfold Qzero_bool. apply Z.eqb_neq. intros E0.
    unfold Qeq, inject_Z in Eq. cbn [Qnum Qden] in Eq. lia.
  - rewrite trunc_opp, T, Z.quot_opp_r by lia. lia.
Qed.

Lemma generateBuffer_negative_tempo (s : Metronome) :
  0 <= sampleRate s <= INT_MAX -> INT_MIN < audioBpm s < 0 ->
  - audioBpm s <= sampleRate s * 60 ->
  INT_MIN <= Z.quot (sampleRate s * 60) (audioBpm s)
             * Z.max 1 (audioTimeSignature s) ->
  generateBuffer s = Throw length_error s.
Proof.
  intros Hr Hb Hq Hfit.
  destruct (beat_quotient_negative (sampleRate s) (audioBpm s)) as (q & E & T);
    [unfold INT_MIN, INT_MAX in *; lia | assumption |].
  set (L := Z.quot (sampleRate s * 60) (audioBpm s)) in *.
  assert (HL : L <= -1).
  { unfold L. replace (audioBpm s) with (- - audioBpm s) by lia.
    rewrite Z.quot_opp_r by lia.
    rewrite Z.quot_div_nonneg by lia.
    assert (1 <= sampleRate s * 60 / - audioBpm s); [|lia].
    apply Z.div_le_lower_bound; lia. }
  assert (HI : INT_MIN <= L) by (unfold INT_MIN in *; nia).
  unfold generateBuffer. cbv [bind get of_option]. rewrite E.
  unfold to_int. rewrite T.
  destruct (Z.leb_spec INT_MIN L); [|lia].
  destruct (Z.leb_spec L INT_MAX); [|unfold INT_MAX in *; lia].
  cbn [andb]. cbv [ret].
  destruct (Z.ltb_spec (audioTimeSignature s) 2).
  - unfold resize. destruct (Z.ltb_spec L 0); [|lia]. reflexivity.
  - unfold checked, int_ok.
    destruct (Z.leb_spec INT_MIN (L * Z.max 1 (audioTimeSignature s))); [|lia].
    destruct (Z.leb_spec (L * Z.max 1 (audioTimeSignature s)) INT_MAX);
      [|unfold INT_MAX in *; nia].
    cbn [andb]. cbv [ret]. unfold resize.
    destruct (Z.ltb_spec (L * Z.max 1 (audioTimeSignature s)) 0); [|nia].
    reflexivity.
Qed.

(** X4. With a negative tempo whose beat is at least one sample long the bar
    cannot be sized: [generateBuffer] throws [std::length_error].  [Play] has
    then already raised the running flag and does not lower it: it throws
    with the engine marked playing, no thread started and no device call
    made, and a second [Play] returns without doing anything. *)
Theorem Play_negative_tempo (s : Metronome) :
  playing s = false ->
  0 <= sampleRate s <= INT_MAX -> INT_MIN < audioBpm s < 0 ->
  - audioBpm s <= sampleRate s * 60 ->
  INT_MIN <= Z.quot (sampleRate s * 60) (audioBpm s)
             * Z.max 1 (audioTimeSignature s) ->
  generateBuffer s = Throw length_error s /\
  Play s = Throw length_error (set_playing true s) /\
  Play (set_playing true s) = Ok tt (set_playing true s).
Proof.
  intros Hp Hr Hb Hq Hfit.
  split; [apply generateBuffer_negative_tempo; assumption|]. split.
  - unfold Play. cbv [exchange bind get modify ret when]. rewrite Hp. cbn [negb].
    rewrite (generateBuffer_negative_tempo (set_playing true s)) by assumption.
    reflexivity.
  - unfold Play. cbv [exchange bind get modify ret when]. reflexivity.
Qed.

Lemma Play_negative_tempo_witness :
  Play (stopped (-120) 4 44100)
    = Throw length_error (set_playing true (stopped (-120) 4 44100)).
Proof.
  apply (Play_negative_tempo (stopped (-120) 4 44100)); evaluate.
Defined.

(** ** Changing the tempo and the time signature *)

Lemma Pause_paused (s : Metronome) :
  playing s = true -> metronomeThread s = true -> Pause s = Ok tt (paused s).
Proof.
  intros Hp Ht. unfold Pause, paused. monad. rewrite Hp.
  cbn. destruct (hWaveOut s); cbn; rewrite Ht; reflexivity.
Qed.

Lemma Pause_stopped (s : Metronome) : playing s = false -> Pause s = Ok tt s.
Proof.
  intros Hp. unfold Pause. monad. rewrite Hp. destruct s; cbn in *; subst; reflexivity.
Qed.

Lemma paused_fields (s : Metronome) :
  sampleRate (paused s) = sampleRate s /\ audioBpm (paused s) = audioBpm s /\
  audioTimeSignature (paused s) = audioTimeSignature s /\
  mainSound (paused s) = mainSound s /\
  accentedSound (paused s) = accentedSound s /\
  playing (paused s) = false /\ metronomeThread (paused s) = false.
Proof. unfold paused. destruct (hWaveOut s); cbn; tauto. Qed.

(** Pause, change a setting, play again: what [SetBPM], [SetTimeSignature]
    do on a playing engine. *)
Lemma restart_started (change : Metronome -> Metronome) (s : Metronome) :
  let s1 := change (paused s) in
  let L := sampleRate s1 * 60 / audioBpm s1 in
  playing s = true -> metronomeThread s = true ->
  playing s1 = false -> metronomeThread s1 = false ->
  0 <= sampleRate s1 <= INT_MAX -> 0 < audioBpm s1 <= INT_MAX ->
  L * Z.max 1 (audioTimeSignature s1) <= INT_MAX ->
  Z.of_nat (length (mainSound s1)) <= INT_MAX ->
  Z.of_nat (length (accentedSound s1)) <= INT_MAX ->
  exists bar,
    (let* wasPlaying := IsPlaying in
     when wasPlaying Pause >> modify change >> when wasPlaying Play) s
      = Ok tt (started bar L s1) /\
    Z.of_nat (length bar) = L * Z.max 1 (audioTimeSignature s1).
Proof.
  intros s1 L Hp Ht Hp1 Ht1 Hr Hb Hfit Hm Ha.
  destruct (generateBuffer_runs (set_playing true s1)) as (bar & E & Len);
    try assumption.
  exists bar. split; [|exact Len].
  cbv [IsPlaying bind get when modify]. rewrite Hp.
  rewrite (Pause_paused s Hp Ht). fold s1.
  apply Play_started; assumption.
Qed.

Lemma set_audioBpm_same (s : Metronome) : set_audioBpm (audioBpm s) s = s.
Proof. destruct s; reflexivity. Qed.

Lemma set_audioTimeSignature_same (s : Metronome) :
  set_audioTimeSignature (audioTimeSignature s) s = s.
Proof. destruct s; reflexivity. Qed.

(** X5. [SetBPM] with the current tempo changes nothing.  On a stopped engine
    it writes the tempo only: the bar and the beat length stay those of the
    old tempo until the next [Play].  On a playing engine it pauses (beat
    index and both cursors back to zero), stores the tempo and plays again,
    which builds a bar with beats of [sampleRate * 60 / bpm] samples. *)
Theorem SetBPM_restart (bpm : Z) (s : Metronome) :
  SetBPM (audioBpm s) s = Ok tt s /\
  (playing s = false -> SetBPM bpm s = Ok tt (set_audioBpm bpm s)) /\
  (playing s = true -> metronomeThread s = true -> bpm <> audioBpm s ->
   0 <= sampleRate s <= INT_MAX -> 0 < bpm <= INT_MAX ->
   sampleRate s * 60 / bpm * Z.max 1 (audioTimeSignature s) <= INT_MAX ->
   Z.of_nat (length (mainSound s)) <= INT_MAX ->
   Z.of_nat (length (accentedSound s)) <= INT_MAX ->
   exists bar,
     SetBPM bpm s
       = Ok tt (started bar (sampleRate s * 60 / bpm)
                  (set_audioBpm bpm (paused s))) /\
     Z.of_nat (length bar)
       = sampleRate s * 60 / bpm * Z.max 1 (audioTimeSignature s)).
Proof.
  split; [|split].
  - unfold SetBPM. cbv [bind get when ret]. rewrite Z.eqb_refl. reflexivity.
  - intros Hp. unfold SetBPM. cbv [bind get when ret IsPlaying modify].
    destruct (Z.eqb_spec (audioBpm s) bpm) as [<- | N]; cbn [negb].
    + rewrite set_audioBpm_same. reflexivity.
    + rewrite Hp. reflexivity.
  - intros Hp Ht N Hr Hb Hfit Hm Ha.
    unfold SetBPM. cbv [bind get when].
    destruct (Z.eqb_spec (audioBpm s) bpm) as [E | _]; [congruence|]. cbn [negb].
    destruct (paused_fields s) as (F1 & F2 & F3 & F4 & F5 & F6 & F7).
    destruct (restart_started (set_audioBpm bpm) s) as (bar & E & Len);
      cbn [sampleRate audioBpm audioTimeSignature mainSound accentedSound
           playing metronomeThread set_audioBpm] in *;
      rewrite ?F1, ?F3, ?F4, ?F5 in *; try assumption.
    exists bar. split; [exact E | exact Len].
Qed.

Lemma SetBPM_restart_witness :
  exists bar,
    SetBPM 240 rolling
      = Ok tt (started bar 2 (set_audioBpm 240 (paused rolling))) /\
    Z.of_nat (length bar) = 8.
Proof.
  apply (SetBPM_restart 240 rolling); evaluate.
Defined.

(** X6. [SetTimeSignature] with the current signature changes nothing.  On a
    stopped engine it writes the signature only, and the beat index is left
    where it was.  On a playing engine it pauses, stores the signature and
    plays again, which builds a bar of [max 1 timeSignature] beats. *)
Theorem SetTimeSignature_restart (timeSignature : Z) (s : Metronome) :
  SetTimeSignature (audioTimeSignature s) s = Ok tt s /\
  (playing s = false ->
   SetTimeSignature timeSignature s
     = Ok tt (set_audioTimeSignature timeSignature s)) /\
  (playing s = true -> metronomeThread s = true ->
   timeSignature <> audioTimeSignature s ->
   0 <= sampleRate s <= INT_MAX -> 0 < audioBpm s <= INT_MAX ->
   sampleRate s * 60 / audioBpm s * Z.max 1 timeSignature <= INT_MAX ->
   Z.of_nat (length (mainSound s)) <= INT_MAX ->
   Z.of_nat (length (accentedSound s)) <= INT_MAX ->
   exists bar,
     SetTimeSignature timeSignature s
       = Ok tt (started bar (sampleRate s * 60 / audioBpm s)
                  (set_audioTimeSignature timeSignature (paused s))) /\
     Z.of_nat (length bar)
       = sampleRate s * 60 / audioBpm s * Z.max 1 timeSignature).
Proof.
  split; [|split].
  - unfold SetTimeSignature. cbv [bind get when ret]. rewrite Z.eqb_refl.
    reflexivity.
  - intros Hp. unfold SetTimeSignature. cbv [bind get when ret IsPlaying modify].
    destruct (Z.eqb_spec (audioTimeSignature s) timeSignature) as [<- | N];
      cbn [negb].
    + rewrite set_audioTimeSignature_same. reflexivity.
    + rewrite Hp. reflexivity.
  - intros Hp Ht N Hr Hb Hfit Hm Ha.
    unfold SetTimeSignature. cbv [bind get when].
    destruct (Z.eqb_spec (audioTimeSignature s) timeSignature) as [E | _];
      [congruence|]. cbn [negb].
    destruct (paused_fields s) as (F1 & F2 & F3 & F4 & F5 & F6 & F7).
    destruct (restart_started (set_audioTimeSignature timeSignature) s)
      as (bar & E & Len);
      cbn [sampleRate audioBpm audioTimeSignature mainSound accentedSound
           playing metronomeThread set_audioTimeSignature] in *;
      rewrite ?F1, ?F2, ?F4, ?F5 in *; try assumption.
    exists bar. split; [exact E | exact Len].
Qed.

Lemma SetTimeSignature_restart_witness :
  exists bar,
    SetTimeSignature 3 rolling
      = Ok tt (started bar 4 (set_audioTimeSignature 3 (paused rolling))) /\
    Z.of_nat (length bar) = 12.
Proof.
  apply (SetTimeSignature_restart 3 rolling); evaluate.
Defined.

(** ** Replacing the waveforms *)

Lemma byteArrayToShortArray_even (x : list byte) :
  x <> [] -> (length x mod 2 = 0)%nat ->
  byteArrayToShortArray x = inr (memcpy_shorts x).
Proof.
  intros Hx He. unfold byteArrayToShortArray.
  destruct (decide _) as [[E | O] | _]; [contradiction | contradiction | reflexivity].
Qed.

Lemma byteArrayToShortArray_odd (x : list byte) :
  (length x mod 2 <> 0)%nat ->
  byteArrayToShortArray x = inl length_error_16bit.
Proof.
  intros Ho. unfold byteArrayToShortArray.
  destruct (decide _) as [_ | N]; [reflexivity | tauto].
Qed.

Lemma set_mainSound_same (s : Metronome) : set_mainSound (mainSound s) s = s.
Proof. destruct s; reflexivity. Qed.

Lemma set_accentedSound_same (s : Metronome) :
  set_accentedSound (accentedSound s) s = s.
Proof. destruct s; reflexivity. Qed.

Lemma load_main (m : list byte) (s : Metronome) :
  (length m mod 2 = 0)%nat ->
  when (negb (is_empty m))
    (let* v := lift (byteArrayToShortArray m) in modify (set_mainSound v)) s
  = Ok tt (set_mainSound (replaced m (mainSound s)) s).
Proof.
  intros He. unfold replaced. destruct m as [| b m]; cbn [is_empty negb when].
  - rewrite set_mainSound_same. reflexivity.
  - rewrite byteArrayToShortArray_even by (try discriminate; exact He). reflexivity.
Qed.

Lemma load_accent (a : list byte) (s : Metronome) :
  (length a mod 2 = 0)%nat ->
  when (negb (is_empty a))
    (let* v := lift (byteArrayToShortArray a) in modify (set_accentedSound v)) s
  = Ok tt (set_accentedSound (replaced a (accentedSound s)) s).
Proof.
  intros He. unfold replaced. destruct a as [| b a]; cbn [is_empty negb when].
  - rewrite set_accentedSound_same. reflexivity.
  - rewrite byteArrayToShortArray_even by (try discriminate; exact He). reflexivity.
Qed.

Lemma bind_ok {A B} (m : M A) (k : A -> M B) s a s' :
  m s = Ok a s' -> bind m k s = k a s'.
Proof. intros E. unfold bind. rewrite E. reflexivity. Qed.

Lemma bind_throw {A B} (m : M A) (k : A -> M B) s e s' :
  m s = Throw e s' -> bind m k s = Throw e s'.
Proof. intros E. unfold bind. rewrite E. reflexivity. Qed.

(** X7. [SetAudioFile] with two empty arrays does nothing.  With well-formed
    arrays it replaces the waveforms it is given and keeps the other: on a
    stopped engine nothing else changes, so the bar still holds the old
    waveforms until the next [Play]; on a playing engine it pauses, replaces
    and plays again, which rebuilds the bar. *)
Theorem SetAudioFile_replaces (m a : list byte) (s : Metronome) :
  (length m mod 2 = 0)%nat -> (length a mod 2 = 0)%nat ->
  SetAudioFile [] [] s = Ok tt s /\
  (playing s = false -> SetAudioFile m a s = Ok tt (with_sounds m a s)) /\
  (playing s = true -> metronomeThread s = true ->
   is_empty m && is_empty a = false ->
   0 <= sampleRate s <= INT_MAX -> 0 < audioBpm s <= INT_MAX ->
   sampleRate s * 60 / audioBpm s * Z.max 1 (audioTimeSignature s) <= INT_MAX ->
   Z.of_nat (length (replaced m (mainSound s))) <= INT_MAX ->
   Z.of_nat (length (replaced a (accentedSound s))) <= INT_MAX ->
   exists bar,
     SetAudioFile m a s
       = Ok tt (started bar (sampleRate s * 60 / audioBpm s)
                  (with_sounds m a (paused s))) /\
     Z.of_nat (length bar)
       = sampleRate s * 60 / audioBpm s * Z.max 1 (audioTimeSignature s)).
Proof.
  intros Hm Ha. split; [reflexivity|]. split.
  - intros Hp. unfold SetAudioFile.
    destruct (negb (is_empty m) || negb (is_empty a)) eqn:Any; cbn [when].
    + rewrite (bind_ok IsPlaying _ s (playing s) s eq_refl). rewrite Hp.
      cbn [when]. rewrite (bind_ok (ret tt) _ s tt s eq_refl).
      rewrite (bind_ok _ _ _ _ _ (load_main m s Hm)).
      rewrite (bind_ok _ _ _ _ _ (load_accent a _ Ha)).
      reflexivity.
    + destruct m, a; try discriminate Any. unfold with_sounds, replaced.
      cbn [is_empty]. rewrite set_mainSound_same, set_accentedSound_same.
      reflexivity.
  - intros Hp Ht Any Hr Hb Hfit Lm La.
    destruct (paused_fields s) as (F1 & F2 & F3 & F4 & F5 & F6 & F7).
    set (s1 := with_sounds m a (paused s)).
    destruct (generateBuffer_runs (set_playing true s1)) as (bar & E & Len);
      cbn [sampleRate audioBpm audioTimeSignature mainSound accentedSound
           set_playing set_mainSound set_accentedSound with_sounds s1] in *;
      rewrite ?F1, ?F2, ?F3, ?F4, ?F5 in *; try assumption.
    exists bar. split; [|exact Len].
    unfold SetAudioFile.
    replace (negb (is_empty m) || negb (is_empty a)) with true
      by (destruct (is_empty m), (is_empty a); try discriminate Any; reflexivity).
    cbn [when].
    rewrite (bind_ok IsPlaying _ s (playing s) s eq_refl). rewrite Hp.
    cbn [when]. rewrite (bind_ok _ _ _ _ _ (Pause_paused s Hp Ht)).
    rewrite (bind_ok _ _ _ _ _ (load_main m _ Hm)).
    rewrite (bind_ok _ _ _ _ _ (load_accent a _ Ha)).
    apply Play_started; [exact F6 | exact F7 |].
    exact E.
Qed.

Lemma SetAudioFile_replaces_witness :
  SetAudioFile click [] (stopped 120 4 8)
    = Ok tt (set_accentedSound [9] (set_mainSound [1; 2] (stopped 120 4 8))) /\
  exists bar,
    SetAudioFile [] click rolling
      = Ok tt (started bar 4 (with_sounds [] click (paused rolling))) /\
    Z.of_nat (length bar) = 16.
Proof.
  destruct (SetAudioFile_replaces click [] (stopped 120 4 8)) as (_ & A & _);
    [reflexivity | reflexivity |].
  destruct (SetAudioFile_replaces [] click rolling) as (_ & _ & B);
    [reflexivity | reflexivity |].
  split; [apply A; reflexivity | apply B; evaluate].
Defined.

Lemma when_Pause (s : Metronome) s1 :
  Pause s = Ok tt s1 -> when (playing s) Pause s = Ok tt s1.
Proof.
  intros E. destruct (playing s) eqn:Hp; cbn [when]; [exact E|].
  rewrite (Pause_stopped s Hp) in E. exact E.
Qed.

(** X8. A malformed array makes [SetAudioFile] throw after the engine has
    been paused and before it is played again: a playing engine is left
    silent.  When the main array is malformed no waveform has changed; when
    the main array is well formed and the accent array is malformed, the main
    waveform has already been replaced. *)
Theorem SetAudioFile_failure (m a : list byte) (s : Metronome) :
  exists s1,
    Pause s = Ok tt s1 /\ playing s1 = false /\
    ((length m mod 2 <> 0)%nat ->
     SetAudioFile m a s = Throw length_error_16bit s1) /\
    ((length m mod 2 = 0)%nat -> (length a mod 2 <> 0)%nat ->
     SetAudioFile m a s
       = Throw length_error_16bit
           (set_mainSound (replaced m (mainSound s1)) s1)).
Proof.
  destruct (Pause_effect s) as (s1 & E & Hp1 & _).
  exists s1. split; [exact E|]. split; [exact Hp1|]. split.
  - intros Ho. unfold SetAudioFile.
    destruct m as [| b m]; [cbn in Ho; congruence|].
    cbn [is_empty negb orb when].
    rewrite (bind_ok IsPlaying _ s (playing s) s eq_refl).
    rewrite (bind_ok _ _ _ _ _ (when_Pause s s1 E)).
    apply bind_throw. apply bind_throw.
    rewrite byteArrayToShortArray_odd by exact Ho. reflexivity.
  - intros He Ho. unfold SetAudioFile.
    destruct a as [| b a]; [cbn in Ho; congruence|].
    rewrite orb_true_r. cbn [is_empty negb when].
    rewrite (bind_ok IsPlaying _ s (playing s) s eq_refl).
    rewrite (bind_ok _ _ _ _ _ (when_Pause s s1 E)).
    rewrite (bind_ok _ _ _ _ _ (load_main m _ He)).
    apply bind_throw. apply bind_throw.
    rewrite byteArrayToShortArray_odd by exact Ho. reflexivity.
Qed.

Lemma SetAudioFile_failure_witness :
  SetAudioFile [x05] [] rolling = Throw length_error_16bit (paused rolling) /\
  SetAudioFile click [x05] rolling
    = Throw length_error_16bit (set_mainSound [1; 2] (paused rolling)).
Proof.
  split.
  - destruct (SetAudioFile_failure [x05] [] rolling) as (s1 & E & _ & A & _).
    rewrite (Pause_paused rolling eq_refl eq_refl) in E.
    injection E as <-. apply A. discriminate.
  - destruct (SetAudioFile_failure click [x05] rolling) as (s1 & E & _ & _ & B).
    rewrite (Pause_paused rolling eq_refl eq_refl) in E.
    injection E as <-. apply B; [reflexivity | discriminate].
Defined.

(** ** Volume *)

(** The product of a volume of the unit interval with an integer scale is a
    double whose integer part stays within the scale. *)
Lemma round64_scaled (x : Q) (J : Z) :
  0 <= J < 2 ^ 53 -> (0 <= x)%Q -> (x <= inject_Z J)%Q ->
  exists r, round64 x = DFin r /\ 0 <= trunc r <= J.
Proof.
  intros HJ H0 H1. unfold round64.
  destruct (Qred_spec x) as (g & Hg & En & Ed).
  destruct x as [a b]. unfold Qle, inject_Z in H0, H1. cbn in H0, H1, En, Ed.
  set (r := Qred (a # b)) in *. clearbody r.
  destruct r as [n d]. cbn [Qnum Qden] in *.
  destruct n as [| p | p].
  - exists 0%Q. split; [reflexivity|]. change (trunc 0) with 0. lia.
  - apply round_pos_range; try lia. nia.
  - nia.
Qed.

(** X9. With a stored volume [v] of the unit interval, [GetVolume] returns
    an integer percentage between 0 and 100 and leaves the engine as it was;
    the percentage is the integer part of the double product [v * 100]. *)
Theorem GetVolume_percent (q : Q) (s : Metronome) :
  audioVolume s = DFin q -> (0 <= q)%Q -> (q <= 1)%Q ->
  exists r,
    dmul (DFin q) (DFin 100) = DFin r /\
    GetVolume s = Ok (trunc r) s /\ 0 <= trunc r <= 100.
Proof.
  intros Hv H0 H1.
  destruct (round64_scaled (q * 100) 100) as (r & E & Hr).
  - lia.
  - apply Qmult_le_0_compat; [exact H0 | discriminate].
  - change (inject_Z 100) with (1 * 100)%Q.
    apply Qmult_le_compat_r; [exact H1 | discriminate].
  - exists r. split; [exact E|]. split; [|exact Hr].
    unfold GetVolume. cbv [bind get of_option ret]. rewrite Hv.
    unfold dmul. rewrite E. unfold to_int.
    destruct (Z.leb_spec INT_MIN (trunc r)); [|unfold INT_MIN in *; lia].
    destruct (Z.leb_spec (trunc r) INT_MAX); [|unfold INT_MAX in *; lia].
    reflexivity.
Qed.

Lemma GetVolume_percent_witness :
  exists r,
    dmul (DFin (1 # 2)) (DFin 100) = DFin r /\
    GetVolume (set_audioVolume (DFin (1 # 2)) rolling)
      = Ok (trunc r) (set_audioVolume (DFin (1 # 2)) rolling) /\
    0 <= trunc r <= 100.
Proof.
  apply (GetVolume_percent (1 # 2) (set_audioVolume (DFin (1 # 2)) rolling));
    [reflexivity | discriminate | discriminate].
Defined.

(** The percentage read back is not always the one that was set: the double
    nearest to 0.29 lies below it, and so does its product with 100. *)
Example GetVolume_29_percent :
  GetVolume (set_audioVolume (ddiv (DFin 29) (DFin 100)) rolling)
    = Ok 28 (set_audioVolume (ddiv (DFin 29) (DFin 100)) rolling).
Proof. vm_compute. reflexivity. Qed.

Lemma percent_checked_all :
  forallb percent_checked (map Z.of_nat (seq 0 101)) = true.
Proof. vm_compute. reflexivity. Qed.

(** X10. Setting an integer percentage [p] of 0..100 as [p / 100.0] and
    reading it back with [GetVolume] gives [p] again, except for 29, 57 and
    58, which read back as 28, 56 and 57: the double product [v * 100] falls
    just below the integer and the cast truncates. *)
Theorem volume_percent_round_trip (p : Z) (s : Metronome) :
  0 <= p <= 100 ->
  exists s',
    SetVolume (percent p) s = Ok tt s' /\
    GetVolume s' = Ok (percent_read_back p) s'.
Proof.
  intros Hp.
  pose proof percent_checked_all as A.
  rewrite forallb_forall in A.
  specialize (A p). rewrite in_map_iff in A.
  assert (C : percent_checked p = true).
  { apply A. exists (Z.to_nat p). split; [lia|]. apply in_seq. lia. }
  clear A. unfold percent_checked in C.
  apply andb_true_iff in C as [C G]. apply andb_true_iff in C as [R W].
  apply negb_true_iff in R.
  rewrite (SetVolume_in_range _ s R).
  destruct (to_dword (dmul (DFin 65535) (percent p))) as [vol|]; [|discriminate].
  destruct (to_int (dmul (percent p) (DFin 100))) as [r|] eqn:E; [|discriminate].
  apply Z.eqb_eq in G. subst r.
  destruct (hWaveOut s); eexists; (split; [reflexivity|]);
    unfold GetVolume; cbv [bind get of_option ret]; cbn [audioVolume set_audioVolume set_waveOut];
    rewrite E; reflexivity.
Qed.

Lemma volume_percent_round_trip_witness :
  exists s',
    SetVolume (percent 57) rolling = Ok tt s' /\ GetVolume s' = Ok 56 s'.
Proof. apply (volume_percent_round_trip 57 rolling). lia. Defined.

Lemma lor_halves (vol : Z) :
  0 <= vol < 2 ^ 16 ->
  Z.lor vol (Z.shiftl vol 16 mod 2 ^ 32) = vol + vol * 2 ^ 16.
Proof.
  intros Hv. rewrite Z.shiftl_mul_pow2 by lia.
  rewrite Z.mod_small by lia.
  rewrite <- Z.lxor_lor, <- Z.add_nocarry_lxor; try reflexivity.
  - apply Z.bits_inj'. intros n Hn. rewrite Z.land_spec, Z.bits_0.
    destruct (Z.lt_ge_cases n 16).
    + rewrite Z.mul_pow2_bits_low by lia. apply andb_false_r.
    + rewrite (Z.bits_above_log2 vol n); [reflexivity | lia |].
      destruct (Z.eq_dec vol 0) as [-> | N]; [cbn; lia|].
      apply Z.lt_le_trans with 16; [|lia]. apply Z.log2_lt_pow2; lia.
  - apply Z.bits_inj'. intros n Hn. rewrite Z.land_spec, Z.bits_0.
    destruct (Z.lt_ge_cases n 16).
    + rewrite Z.mul_pow2_bits_low by lia. apply andb_false_r.
    + rewrite (Z.bits_above_log2 vol n); [reflexivity | lia |].
      destruct (Z.eq_dec vol 0) as [-> | N]; [cbn; lia|].
      apply Z.lt_le_trans with 16; [|lia]. apply Z.log2_lt_pow2; lia.
Qed.

(** The level computed from an accepted volume and the word sent to an open
    device. *)
Lemma SetVolume_level (q : Q) (s : Metronome) :
  hWaveOut s = true -> (0 <= q)%Q -> (q <= 1)%Q ->
  exists r,
    dmul (DFin 65535) (DFin q) = DFin r /\ 0 <= trunc r <= 65535 /\
    SetVolume (DFin q) s
      = Ok tt (set_waveOut (waveOut s ++ [waveOutSetVolume (trunc r * 65537)])
                 (set_audioVolume (DFin q) s)).
Proof.
  intros Ho H0 H1.
  destruct (round64_scaled (65535 * q) 65535) as (r & E & Hr).
  - lia.
  - apply Qmult_le_0_compat; [discriminate | exact H0].
  - change (inject_Z 65535) with (65535 * 1)%Q.
    rewrite (Qmult_comm 65535 q), (Qmult_comm 65535 1).
    apply Qmult_le_compat_r; [exact H1 | discriminate].
  - exists r. split; [unfold dmul; exact E|]. split; [exact Hr|].
    rewrite SetVolume_in_range by (apply dlt_unit_interval; assumption).
    rewrite Ho. unfold dmul. rewrite E. unfold to_dword.
    destruct (Z.leb_spec 0 (trunc r)); [|lia].
    destruct (Z.ltb_spec (trunc r) (2 ^ 32)); [|lia].
    cbn [andb]. rewrite lor_halves by lia.
    replace (trunc r + trunc r * 2 ^ 16) with (trunc r * 65537) by lia.
    reflexivity.
Qed.

(** X11. On an open device an accepted volume reaches [waveOutSetVolume] as a
    word whose low and high 16-bit halves both hold the same level between 0
    and 65535, the integer part of the double product [65535 * v]: the word
    is [level * 65537], zero for volume 0 and [2^32 - 1] for volume 1. *)
Theorem SetVolume_both_channels (q : Q) (s : Metronome) :
  hWaveOut s = true -> (0 <= q)%Q -> (q <= 1)%Q ->
  exists r level,
    dmul (DFin 65535) (DFin q) = DFin r /\ level = trunc r /\
    0 <= level <= 65535 /\
    SetVolume (DFin q) s
      = Ok tt (set_waveOut (waveOut s ++ [waveOutSetVolume (level * 65537)])
                 (set_audioVolume (DFin q) s)) /\
    Z.land (level * 65537) 65535 = level /\
    Z.shiftr (level * 65537) 16 = level /\
    ((q == 0)%Q -> level = 0) /\ ((q == 1)%Q -> level = 65535).
Proof.
  intros Ho H0 H1.
  destruct (SetVolume_level q s Ho H0 H1) as (r & E & Hr & S).
  exists r, (trunc r). split; [exact E|]. split; [reflexivity|].
  split; [exact Hr|]. split; [exact S|].
  unfold dmul in E. split; [|split; [|split]].
  - change 65535 with (Z.ones 16). rewrite Z.land_ones by lia.
    change (2 ^ 16) with 65536.
    replace (trunc r * 65537) with (trunc r + trunc r * 65536) by lia.
    rewrite Z.mod_add by lia. apply Z.mod_small. lia.
  - rewrite Z.shiftr_div_pow2 by lia. change (2 ^ 16) with 65536.
    replace (trunc r * 65537) with (trunc r + trunc r * 65536) by lia.
    rewrite Z.div_add by lia. rewrite Z.div_small by lia. lia.
  - intros Eq.
    rewrite (round64_proper (65535 * q) 0) in E by (rewrite Eq; reflexivity).
    vm_compute in E. injection E as <-. reflexivity.
  - intros Eq.
    rewrite (round64_proper (65535 * q) 65535) in E by (rewrite Eq; reflexivity).
    vm_compute in E. injection E as <-. reflexivity.
Qed.

Lemma SetVolume_both_channels_witness :
  exists r level,
    dmul (DFin 65535) (DFin 1) = DFin r /\ level = trunc r /\
    0 <= level <= 65535 /\
    SetVolume (DFin 1) rolling
      = Ok tt (set_waveOut (waveOut rolling ++ [waveOutSetVolume (level * 65537)])
                 (set_audioVolume (DFin 1) rolling)) /\
    level = 65535.
Proof.
  destruct (SetVolume_both_channels 1 rolling)
    as (r & level & A & B & C & D & _ & _ & _ & E);
    [reflexivity | discriminate | discriminate |].
  exists r, level. repeat split; try assumption; try lia. apply E. reflexivity.
Defined.

(** X12. A NaN volume is not rejected: both comparisons of the range check
    are false for it.  With the device closed the NaN is stored, and
    [GetVolume] then casts a NaN to [int]; with the device open the cast of
    the NaN product to [DWORD] is reached.  Both casts are undefined. *)
Theorem SetVolume_NaN_accepted (s : Metronome) :
  SetVolume DNaN s
    = (if hWaveOut s then Crash else Ok tt (set_audioVolume DNaN s)) /\
  GetVolume (set_audioVolume DNaN s) = Crash.
Proof.
  split.
  - rewrite SetVolume_in_range by reflexivity. destruct (hWaveOut s); reflexivity.
  - reflexivity.
Qed.

(** ** Invariants of every run *)

Lemma coherent_view s s' :
  currentTick s' = currentTick s -> tickEvents s' = tickEvents s ->
  playing s' = playing s -> metronomeThread s' = metronomeThread s ->
  coherent s -> coherent s'.
Proof. unfold coherent. intros -> -> -> ->. tauto. Qed.

Lemma preserves_ret {A} (a : A) : preserves (ret a).
Proof. intros s H. exact H. Qed.

Lemma preserves_throw {A} e : preserves (@throw A e).
Proof. intros s H. exact H. Qed.

Lemma preserves_crash {A} : preserves (@crash A).
Proof. intros s H. exact I. Qed.

Lemma preserves_get {A} (f : Metronome -> A) : preserves (get f).
Proof. intros s H. exact H. Qed.

Lemma preserves_modify f :
  (forall s, currentTick (f s) = currentTick s /\ tickEvents (f s) = tickEvents s /\
             playing (f s) = playing s /\ metronomeThread (f s) = metronomeThread s) ->
  preserves (modify f).
Proof.
  intros F s H. cbn. destruct (F s) as (A & B & C & D).
  exact (coherent_view s (f s) A B C D H).
Qed.

Lemma preserves_bind {A B} (m : M A) (k : A -> M B) :
  preserves m -> (forall a, preserves (k a)) -> preserves (bind m k).
Proof.
  intros Hm Hk s H. unfold bind. specialize (Hm s H).
  destruct (m s) as [a s1 | e s1 |]; [| exact Hm | exact I].
  exact (Hk a s1 Hm).
Qed.

Lemma preserves_when b m : preserves m -> preserves (when b m).
Proof. intros H. destruct b; [exact H | apply preserves_ret]. Qed.

Lemma preserves_if {A} (b : bool) (m1 m2 : M A) :
  preserves m1 -> preserves m2 -> preserves (if b then m1 else m2).
Proof. destruct b; auto. Qed.

Lemma preserves_lift r : preserves (lift r).
Proof. destruct r; [apply preserves_throw | apply preserves_ret]. Qed.

Lemma preserves_of_option {A} (o : option A) : preserves (of_option o).
Proof. destruct o; [apply preserves_ret | apply preserves_crash]. Qed.

Lemma preserves_slice v from n : preserves (slice v from n).
Proof. unfold slice. apply preserves_if; [apply preserves_crash | apply preserves_ret]. Qed.

Lemma preserves_device c : preserves (device c).
Proof.
  intros s H. unfold device.
  destruct (hWaveOut s); [|exact H].
  eapply coherent_view; [.. | exact H]; reflexivity.
Qed.

Lemma preserves_generateBuffer : preserves generateBuffer.
Proof.
  intros s H. pose proof (generateBuffer_frame s) as F.
  destruct (generateBuffer s) as [b s' | e s' |]; [| subst; exact H | exact I].
  destruct F as [L ->]. eapply coherent_view; [.. | exact H]; reflexivity.
Qed.

Lemma preserves_SetVolume v : preserves (SetVolume v).
Proof.
  intros s H. destruct (dlt v (DFin 0) || dlt (DFin 1) v) eqn:E.
  - rewrite (SetVolume_out_of_range _ _ E). exact H.
  - rewrite (SetVolume_in_range _ _ E).
    destruct (hWaveOut s); [destruct (to_dword _) |]; try exact I;
      (eapply coherent_view; [.. | exact H]; reflexivity).
Qed.

Ltac settle :=
  cbn; unfold coherent; cbn; intuition (try lia; try congruence).

Lemma preserves_Play : preserves Play.
Proof.
  intros s (T & Ev & Th). unfold Play. monad.
  destruct (playing s) eqn:P; cbn [negb].
  - settle.
  - pose proof (generateBuffer_frame (set_playing true s)) as F.
    destruct (generateBuffer (set_playing true s)) as [b s' | e s' |];
      [| subst; settle | exact I].
    destruct F as [L ->]. cbn.
    destruct (metronomeThread s) eqn:J; [specialize (Th eq_refl); discriminate|].
    destruct (hWaveOut s); cbn; rewrite J; settle.
Qed.

Lemma preserves_Pause : preserves Pause.
Proof.
  intros s (T & Ev & Th). unfold Pause. monad.
  destruct (playing s) eqn:P; cbn.
  - destruct (hWaveOut s); cbn; destruct (metronomeThread s) eqn:J; settle.
  - settle.
Qed.

Lemma preserves_Stop : preserves Stop.
Proof.
  intros s (T & Ev & Th). unfold Stop. monad.
  destruct (playing s) eqn:P; cbn.
  - destruct (hWaveOut s); cbn; destruct (metronomeThread s) eqn:J; settle.
  - settle.
Qed.

Lemma preserves_OnBufferDone : preserves OnBufferDone.
Proof.
  intros s (T & Ev & Th). destruct (eventTickSink s) eqn:Hs.
  - rewrite (OnBufferDone_sink s Hs). cbv zeta.
    destruct (audioTimeSignature s <? 2).
    + unfold coherent. cbn. split; [lia|]. split; [|exact Th].
      apply Forall_app. split; [exact Ev|]. repeat constructor. lia.
    + destruct (int_ok _); [|exact I].
      assert (0 <= (if audioTimeSignature s <=? currentTick s + 1 then 0
                    else currentTick s + 1))
        by (destruct (_ <=? _); lia).
      unfold coherent. cbn. split; [assumption|]. split; [|exact Th].
      apply Forall_app. split; [exact Ev|]. repeat constructor. assumption.
  - rewrite (OnBufferDone_no_sink s Hs). settle.
Qed.

Create HintDb preserves.

#[local] Hint Resolve preserves_ret preserves_throw preserves_crash preserves_get
  preserves_lift preserves_of_option preserves_slice preserves_device
  preserves_generateBuffer preserves_SetVolume preserves_Play preserves_Pause
  preserves_Stop preserves_OnBufferDone preserves_when preserves_if
  preserves_bind : preserves.

#[local] Hint Extern 1 (preserves (modify _)) =>
  apply preserves_modify; intros; cbn; repeat split; reflexivity : preserves.

Lemma preserves_exec o : preserves (exec o).
Proof.
  destruct o; cbn [exec];
    unfold SetBPM, SetTimeSignature, SetAudioFile, EnableTickCallback,
      StartMetronome_step, PlaySound, WaveOutProc, IsPlaying;
    auto 30 with preserves.
Qed.

Lemma preserves_construct m a r : preserves (construct m a r).
Proof.
  unfold construct, InitializeAudio. auto 30 with preserves.
Qed.

Lemma run_coherent ops : forall s s',
  coherent s -> run ops s = Some s' -> coherent s'.
Proof.
  induction ops as [| o ops IH]; intros s s' Hs; cbn [run].
  - intros H. injection H as <-. exact Hs.
  - pose proof (preserves_exec o s Hs) as P.
    destruct (exec o s) as [[] s1 | e s1 |]; cbn [after]; try discriminate;
      apply IH; exact P.
Qed.

Lemma new_Metronome_coherent m a bpm n v rate r s :
  new_Metronome m a bpm n v rate r = Ok tt s -> coherent s.
Proof.
  unfold new_Metronome. intros H.
  pose proof (preserves_construct m a r (blank bpm n v rate)) as K.
  rewrite H in K. apply K. unfold coherent. cbn.
  split; [lia|]. split; [constructor | discriminate].
Qed.




(** X14. On every state reached from a constructed engine, [Stop] included,
    the beat index and the indices already delivered to the sink are not
    negative, and the next completion on a playing engine with a sink
    delivers an index inside the current bar, [0 <= t < max 1
    timeSignature], also when the index it started from lies outside. *)
Theorem completion_delivers_inside_bar m a bpm n v rate r s0 ops s :
  new_Metronome m a bpm n v rate r = Ok tt s0 ->
  run ops s0 = Some s ->
  0 <= currentTick s /\
  Forall (fun t => 0 <= t) (tickEvents s) /\
  (playing s = true -> eventTickSink s = true -> currentTick s < INT_MAX ->
   exists t,
     WaveOutProc WOM_DONE s
       = Ok tt (delivered t (set_playCursor (playCursor s + beatLength s) s)) /\
     0 <= t < Z.max 1 (audioTimeSignature s)).
Proof.
  intros H0 Hr.
  destruct (run_coherent ops s0 s (new_Metronome_coherent _ _ _ _ _ _ _ _ H0) Hr)
    as (T & Ev & _).
  split; [exact T|]. split; [exact Ev|].
  intros Hp Hs Hmax. unfold WaveOutProc. cbv [bind get when]. rewrite Hp.
  rewrite (OnBufferDone_sink s Hs). cbv zeta.
  destruct (Z.ltb_spec (audioTimeSignature s) 2).
  - exists 0. split; [reflexivity | lia].
  - unfold int_ok.
    destruct (Z.leb_spec INT_MIN (currentTick s + 1)); [|unfold INT_MIN in *; lia].
    destruct (Z.leb_spec (currentTick s + 1) INT_MAX); [|lia].
    cbn [andb]. eexists. split; [reflexivity|].
    destruct (Z.leb_spec (audioTimeSignature s) (currentTick s + 1)); lia.
Qed.

Lemma completion_delivers_inside_bar_witness :
  exists s0 s,
    new_Metronome click accent 120 4 (DFin 1) 8 0 = Ok tt s0 /\
    run [OpEnableTickCallback true; OpPlay; OpDone; OpDone; OpDone; OpStop;
         OpSetTimeSignature 2; OpPlay] s0 = Some s /\
    currentTick s = 3 /\ audioTimeSignature s = 2 /\
    WaveOutProc WOM_DONE s
      = Ok tt (delivered 0 (set_playCursor (playCursor s + beatLength s) s)).
Proof.
  eexists. eexists. split; [exact small_engine|].
  split; [vm_compute; reflexivity|].
  split; [reflexivity|]. split; [reflexivity|].
  match goal with
  | |- WaveOutProc _ ?s = _ =>
      destruct (completion_delivers_inside_bar _ _ _ _ _ _ _ _
                  [OpEnableTickCallback true; OpPlay; OpDone; OpDone; OpDone;
                   OpStop; OpSetTimeSignature 2; OpPlay] s small_engine)
        as (_ & _ & D); [vm_compute; reflexivity|]
  end.
  destruct D as (t & E & Ht); [reflexivity | reflexivity | evaluate |].
  assert (Et : t = 0) by (vm_compute in E; congruence).
  rewrite Et in E. exact E.
Defined.

(** X15. On every state reached from a constructed engine a producer thread
    exists only while the engine is marked playing.  So [Play] on a stopped
    engine never assigns over a running thread: once the bar is built it
    returns with the engine started. *)
Theorem producer_thread_only_while_playing m a bpm n v rate r s0 ops s :
  new_Metronome m a bpm n v rate r = Ok tt s0 ->
  run ops s0 = Some s ->
  (metronomeThread s = true -> playing s = true) /\
  (forall bar L,
     playing s = false ->
     generateBuffer (set_playing true s)
       = Ok bar (set_beatLength L (set_playing true s)) ->
     Play s = Ok tt (started bar L s)).
Proof.
  intros H0 Hr.
  destruct (run_coherent ops s0 s (new_Metronome_coherent _ _ _ _ _ _ _ _ H0) Hr)
    as (_ & _ & Th).
  split; [exact Th|]. intros bar L Hp E.
  apply Play_started; [exact Hp | | exact E].
  destruct (metronomeThread s); [specialize (Th eq_refl); congruence | reflexivity].
Qed.

Lemma producer_thread_only_while_playing_witness :
  exists s0 s,
    new_Metronome click accent 120 4 (DFin 1) 8 0 = Ok tt s0 /\
    run [OpPlay; OpProducer true true; OpStop; OpSetBPM 240] s0 = Some s /\
    metronomeThread s = false /\
    Play s = Ok tt (started [9; 0; 1; 2; 1; 2; 1; 2] 2 s).
Proof.
  eexists. eexists. split; [exact small_engine|].
  split; [vm_compute; reflexivity|].
  split; [reflexivity|].
  eapply (producer_thread_only_while_playing _ _ _ _ _ _ _ _
            [OpPlay; OpProducer true true; OpStop; OpSetBPM 240] _ small_engine).
  - vm_compute. reflexivity.
  - reflexivity.
  - vm_compute. reflexivity.
Defined.

(** ** Tear-down *)

(** X16. [Destroy] always returns.  It leaves the engine stopped and the
    device closed; an open device receives [waveOutClose] exactly once,
    preceded by a [waveOutReset] when the engine was playing, and a closed
    device receives nothing.  The beat index and the cursors are left as they
    were, and a second [Destroy] changes nothing. *)
Theorem Destroy_releases (s : Metronome) :
  exists s',
    Destroy s = Ok tt s' /\
    playing s' = false /\ hWaveOut s' = false /\
    (playing s = true -> metronomeThread s' = false) /\
    waveOut s'
      = waveOut s ++
        (if hWaveOut s
         then (if playing s then [waveOutReset] else []) ++ [waveOutClose]
         else []) /\
    currentTick s' = currentTick s /\ writeCursor s' = writeCursor s /\
    playCursor s' = playCursor s /\
    Destroy s' = Ok tt s'.
Proof.
  unfold Destroy, Stop. monad.
  destruct s as [ms acs ab bpm ts vol sr bl ct wc pc pl th hw sink wo te].
  destruct pl, hw, th; cbn; eexists; (split; [reflexivity|]); cbn;
    rewrite ?app_nil_r, <- ?app_assoc; repeat split; congruence.
Qed.

(** ** Construction *)






(** ** Bars of a single beat *)

Lemma generateBuffer_ignores_accent (s : Metronome) (other : list Z) :
  audioTimeSignature s < 2 ->
  generateBuffer (set_accentedSound other s)
    = match generateBuffer s with
      | Ok bar s1 => Ok bar (set_accentedSound other s1)
      | Throw e s1 => Throw e (set_accentedSound other s1)
      | Crash => Crash
      end.
Proof.
  intros Ht. unfold generateBuffer. monad.
  cbn [sampleRate audioBpm audioTimeSignature mainSound set_accentedSound].
  destruct (to_int _) as [L |]; [|reflexivity].
  cbn [sampleRate audioBpm audioTimeSignature mainSound set_accentedSound].
  destruct (Z.ltb_spec (audioTimeSignature s) 2); [|lia].
  destruct (L <? 0); [reflexivity|].
  cbn [sampleRate audioBpm audioTimeSignature mainSound set_accentedSound].
  unfold copy_n. cbn [Z.ltb Z.compare].
  destruct (copy_loop _ _ _ _); reflexivity.
Qed.

(** X19. With a time signature below 2 (one, zero or negative) the bar is a
    single beat: [beatLength] samples that start with the main waveform, as
    much of it as fits, and are silent after it.  The accent waveform is not
    read: with any other accent the same bar is built. *)
Theorem generateBuffer_single_beat (s : Metronome) (other : list Z) :
  let L := sampleRate s * 60 / audioBpm s in
  let copied := Z.min L (Z.of_nat (length (mainSound s))) in
  audioTimeSignature s < 2 ->
  0 <= sampleRate s <= INT_MAX -> 0 < audioBpm s <= INT_MAX ->
  L <= INT_MAX -> Z.of_nat (length (mainSound s)) <= INT_MAX ->
  exists bar,
    generateBuffer s = Ok bar (set_beatLength L s) /\
    Z.of_nat (length bar) = L /\
    (forall j, 0 <= j < copied -> bar !! Z.to_nat j = mainSound s !! Z.to_nat j) /\
    (forall j, copied <= j < L -> bar !! Z.to_nat j = Some 0) /\
    generateBuffer (set_accentedSound other s)
      = Ok bar (set_beatLength L (set_accentedSound other s)).
Proof.
  intros L copied Ht Hr Hb Hfit Hm.
  destruct (generateBuffer_single s Hr Hb Ht Hfit Hm) as (bar & E & Len & A & B).
  exists bar. split; [exact E|]. split; [exact Len|]. split; [exact A|].
  split; [exact B|].
  rewrite (generateBuffer_ignores_accent s other Ht), E. reflexivity.
Qed.

Lemma generateBuffer_single_beat_witness :
  exists bar,
    generateBuffer (stopped 120 1 8) = Ok bar (set_beatLength 4 (stopped 120 1 8)) /\
    bar = [1; 2; 0; 0].
Proof.
  destruct (generateBuffer_single_beat (stopped 120 1 8) [])
    as (bar & E & Len & A & B & _); [evaluate ..|].
  exists bar. split; [exact E|].
  assert (Len' : length bar = 4%nat) by (apply Nat2Z.inj; exact Len).
  destruct bar as [|a [|b [|c [|d [|e bar]]]]]; try discriminate Len'.
  pose proof (A 0 ltac:(evaluate)) as A0. pose proof (A 1 ltac:(evaluate)) as A1.
  pose proof (B 2 ltac:(evaluate)) as B2. pose proof (B 3 ltac:(evaluate)) as B3.
  vm_compute in A0, A1, B2, B3. congruence.
Defined.

(** ** Starting, and starting again *)

(** X20. [Play] on a stopped engine builds the bar for the current tempo and
    time signature, stores it with the beat length, restarts the stream of an
    open device and starts the producer thread.  It writes neither cursor nor
    the beat index: playback goes on from where they stand. *)
Theorem Play_starts_in_place (s : Metronome) :
  let L := sampleRate s * 60 / audioBpm s in
  playing s = false -> metronomeThread s = false ->
  0 <= sampleRate s <= INT_MAX -> 0 < audioBpm s <= INT_MAX ->
  L * Z.max 1 (audioTimeSignature s) <= INT_MAX ->
  Z.of_nat (length (mainSound s)) <= INT_MAX ->
  Z.of_nat (length (accentedSound s)) <= INT_MAX ->
  exists bar,
    Play s = Ok tt (started bar L s) /\
    Z.of_nat (length bar) = L * Z.max 1 (audioTimeSignature s) /\
    writeCursor (started bar L s) = writeCursor s /\
    playCursor (started bar L s) = playCursor s /\
    currentTick (started bar L s) = currentTick s.
Proof.
  intros L Hp Ht Hr Hb Hfit Hm Ha.
  destruct (generateBuffer_runs (set_playing true s)) as (bar & E & Len);
    try assumption.
  exists bar. split; [apply Play_started; assumption|]. split; [exact Len|].
  unfold started. destruct (hWaveOut s); cbn; auto.
Qed.

Lemma Play_starts_in_place_witness :
  exists bar,
    Play (set_writeCursor 12 (stopped 120 4 8))
      = Ok tt (started bar 4 (set_writeCursor 12 (stopped 120 4 8))) /\
    Z.of_nat (length bar) = 16 /\
    writeCursor (started bar 4 (set_writeCursor 12 (stopped 120 4 8))) = 12.
Proof.
  destruct (Play_starts_in_place (set_writeCursor 12 (stopped 120 4 8)))
    as (bar & E & Len & W & _); [evaluate ..|].
  exists bar. split; [exact E|]. split; [exact Len | exact W].
Defined.

Lemma Stop_halted (s : Metronome) :
  playing s = true -> metronomeThread s = true -> Stop s = Ok tt (halted s).
Proof.
  intros Hp Ht. unfold Stop, halted. monad. rewrite Hp.
  cbn. destruct (hWaveOut s); cbn; rewrite Ht; reflexivity.
Qed.

(** A producer pass right after [Play] on a stopped engine whose write cursor
    stands at the start of beat [c]. *)
Lemma Play_then_produce (s : Metronome) (c : Z) :
  let L := sampleRate s * 60 / audioBpm s in
  let n := Z.max 1 (audioTimeSignature s) in
  playing s = false -> metronomeThread s = false -> hWaveOut s = true ->
  0 <= sampleRate s <= INT_MAX -> 0 < audioBpm s <= INT_MAX ->
  0 < L -> L * n <= INT_MAX ->
  Z.of_nat (length (mainSound s)) <= INT_MAX ->
  Z.of_nat (length (accentedSound s)) <= INT_MAX ->
  0 <= c -> writeCursor s = c * L ->
  exists s',
    run [OpPlay; OpProducer true true] s = Some s' /\
    writeCursor s' = (c + 1) * L /\
    Z.of_nat (length (audioBuffer s')) = L * n /\
    waveOut s'
      = waveOut s ++
        [waveOutRestart; waveOutWrite (slot (audioBuffer s') L (c mod n))].
Proof.
  intros L n Hp Ht Ho Hr Hb HL Hfit Hm Ha Hc Hw.
  destruct (generateBuffer_runs (set_playing true s)) as (bar & E & Len);
    try assumption.
  cbn [sampleRate audioBpm audioTimeSignature set_playing] in E, Len.
  fold L in E, Len. fold n in Len.
  pose proof (Play_started s bar L Hp Ht E) as P.
  set (s1 := started bar L s) in *.
  assert (F : playing s1 = true /\ metronomeThread s1 = true /\
              beatLength s1 = L /\ audioBuffer s1 = bar /\
              writeCursor s1 = writeCursor s /\ hWaveOut s1 = true /\
              waveOut s1 = waveOut s ++ [waveOutRestart]).
  { unfold s1, started. rewrite Ho. cbn. repeat split; auto. }
  destruct F as (F1 & F2 & F3 & F4 & F5 & F6 & F7).
  assert (S : StartMetronome_step true true s1
              = Ok tt (produced true true (slot bar L (c mod n)) s1)).
  { unfold StartMetronome_step. cbv [bind get when]. rewrite F2.
    rewrite (PlaySound_slot true true s1 n c);
      [ rewrite F3, F4; reflexivity | exact F1 | rewrite F3; exact HL
      | unfold n; lia | rewrite F3, F4; exact Len | rewrite F3; exact Hfit
      | exact Hc | rewrite F3, F5; exact Hw ]. }
  eexists. split.
  { cbn [run exec]. rewrite P. cbn [after]. rewrite S. reflexivity. }
  unfold produced. rewrite F6. cbn [andb].
  cbn [writeCursor audioBuffer waveOut set_waveOut set_writeCursor].
  rewrite F3, F4, F5, F7, Len, Hw, <- app_assoc.
  split; [lia|]. split; reflexivity.
Qed.

(** X21. Where playback resumes.  From a playing engine whose write cursor
    stands at the start of beat [c], [Pause], [Play] and a producer pass send
    the device slot 0 of the bar, its accented first beat; [Stop], [Play] and
    a producer pass send slot [c mod n], the beat the producer had reached,
    and the cursor goes on from there. *)
Theorem resume_position (s : Metronome) (c : Z) :
  let L := sampleRate s * 60 / audioBpm s in
  let n := Z.max 1 (audioTimeSignature s) in
  playing s = true -> metronomeThread s = true -> hWaveOut s = true ->
  0 <= sampleRate s <= INT_MAX -> 0 < audioBpm s <= INT_MAX ->
  0 < L -> L * n <= INT_MAX ->
  Z.of_nat (length (mainSound s)) <= INT_MAX ->
  Z.of_nat (length (accentedSound s)) <= INT_MAX ->
  0 <= c -> writeCursor s = c * L ->
  (exists s1,
     run [OpPause; OpPlay; OpProducer true true] s = Some s1 /\
     writeCursor s1 = L /\
     Z.of_nat (length (audioBuffer s1)) = L * n /\
     waveOut s1
       = waveOut s ++
         [waveOutBreakLoop; waveOutRestart;
          waveOutWrite (slot (audioBuffer s1) L 0)]) /\
  (exists s2,
     run [OpStop; OpPlay; OpProducer true true] s = Some s2 /\
     writeCursor s2 = (c + 1) * L /\
     Z.of_nat (length (audioBuffer s2)) = L * n /\
     waveOut s2
       = waveOut s ++
         [waveOutReset; waveOutRestart;
          waveOutWrite (slot (audioBuffer s2) L (c mod n))]).
Proof.
  intros L n Hp Ht Ho Hr Hb HL Hfit Hm Ha Hc Hw. split.
  - set (p := paused s).
    assert (F : sampleRate p = sampleRate s /\ audioBpm p = audioBpm s /\
                audioTimeSignature p = audioTimeSignature s /\
                mainSound p = mainSound s /\ accentedSound p = accentedSound s /\
                playing p = false /\ metronomeThread p = false /\
                hWaveOut p = true /\ writeCursor p = 0 /\
                waveOut p = waveOut s ++ [waveOutBreakLoop]).
    { unfold p, paused. rewrite Ho. cbn. repeat split; auto. }
    destruct F as (G1 & G2 & G3 & G4 & G5 & G6 & G7 & G8 & G9 & G10).
    destruct (Play_then_produce p 0) as (s1 & R & W & Len & Log);
      rewrite ?G1, ?G2, ?G3, ?G4, ?G5, ?G9; try assumption; try lia.
    rewrite G1, G2 in W. rewrite G1, G2, G3 in Len, Log. rewrite G10 in Log.
    fold L in W, Len, Log. fold n in Len, Log.
    exists s1. split.
    { change (run [OpPause; OpPlay; OpProducer true true] s)
        with (match after (Pause s) with
              | Some s' => run [OpPlay; OpProducer true true] s'
              | None => None
              end).
      rewrite (Pause_paused s Hp Ht). cbn [after]. exact R. }
    split; [lia|]. split; [exact Len|].
    rewrite Log, <- app_assoc. rewrite Z.mod_0_l by lia. reflexivity.
  - set (p := halted s).
    assert (F : sampleRate p = sampleRate s /\ audioBpm p = audioBpm s /\
                audioTimeSignature p = audioTimeSignature s /\
                mainSound p = mainSound s /\ accentedSound p = accentedSound s /\
                playing p = false /\ metronomeThread p = false /\
                hWaveOut p = true /\ writeCursor p = writeCursor s /\
                waveOut p = waveOut s ++ [waveOutReset]).
    { unfold p, halted. rewrite Ho. cbn. repeat split; auto. }
    destruct F as (G1 & G2 & G3 & G4 & G5 & G6 & G7 & G8 & G9 & G10).
    destruct (Play_then_produce p c) as (s2 & R & W & Len & Log);
      rewrite ?G1, ?G2, ?G3, ?G4, ?G5, ?G9; try assumption; try lia.
    rewrite G1, G2 in W. rewrite G1, G2, G3 in Len, Log. rewrite G10 in Log.
    fold L in W, Len, Log. fold n in Len, Log.
    exists s2. split.
    { change (run [OpStop; OpPlay; OpProducer true true] s)
        with (match after (Stop s) with
              | Some s' => run [OpPlay; OpProducer true true] s'
              | None => None
              end).
      rewrite (Stop_halted s Hp Ht). cbn [after]. exact R. }
    split; [exact W|]. split; [exact Len|].
    rewrite Log, <- app_assoc. reflexivity.
Qed.

Lemma resume_position_witness :
  (exists s1,
     run [OpPause; OpPlay; OpProducer true true] (set_writeCursor 8 rolling)
       = Some s1 /\
     last_fragment_start 4 s1 = Some [9; 0; 0; 0]) /\
  (exists s2,
     run [OpStop; OpPlay; OpProducer true true] (set_writeCursor 8 rolling)
       = Some s2 /\
     last_fragment_start 4 s2 = Some [1; 2; 0; 0]).
Proof.
  destruct (resume_position (set_writeCursor 8 rolling) 2) as [A B];
    [evaluate ..|].
  destruct A as (s1 & R1 & _). destruct B as (s2 & R2 & _).
  split.
  - exists s1. split; [exact R1|].
    vm_compute in R1. injection R1 as <-. reflexivity.
  - exists s2. split; [exact R2|].
    vm_compute in R2. injection R2 as <-. reflexivity.
Defined.

(** ** Fragments and beats *)






Lemma untouched_ret {A} (a : A) : untouched (ret a).
Proof. intros s. cbn. auto. Qed.

Lemma untouched_throw {A} e : untouched (@throw A e).
Proof. intros s. cbn. auto. Qed.

Lemma untouched_get {A} (f : Metronome -> A) : untouched (get f).
Proof. intros s. cbn. auto. Qed.

Lemma untouched_modify f :
  (forall s, playing (f s) = playing s /\
             metronomeThread (f s) = metronomeThread s /\
             writeCursor (f s) = writeCursor s) ->
  untouched (modify f).
Proof. intros H s. cbn. apply H. Qed.

Lemma untouched_bind {A B} (m : M A) (k : A -> M B) :
  untouched m -> (forall a, untouched (k a)) -> untouched (bind m k).
Proof.
  intros Hm Hk s. unfold bind. specialize (Hm s).
  destruct (m s) as [a s1 | e s1 |]; [| exact Hm | exact I].
  specialize (Hk a s1). destruct (k a s1); [| | exact I];
    destruct Hm as (? & ? & ?), Hk as (? & ? & ?); repeat split; congruence.
Qed.

Lemma untouched_when b m : untouched m -> untouched (when b m).
Proof. intros H. destruct b; [exact H | apply untouched_ret]. Qed.

Lemma untouched_if {A} (b : bool) (m1 m2 : M A) :
  untouched m1 -> untouched m2 -> untouched (if b then m1 else m2).
Proof. destruct b; auto. Qed.

Lemma untouched_lift r : untouched (lift r).
Proof. destruct r; [apply untouched_throw | apply untouched_ret]. Qed.

Lemma untouched_generateBuffer : untouched generateBuffer.
Proof.
  intros s. pose proof (generateBuffer_frame s) as F.
  destruct (generateBuffer s) as [b s' | e s' |]; [| subst; auto | exact I].
  destruct F as [L ->]. cbn. auto.
Qed.

Lemma untouched_SetVolume v : untouched (SetVolume v).
Proof.
  intros s. destruct (dlt v (DFin 0) || dlt (DFin 1) v) eqn:E.
  - rewrite (SetVolume_out_of_range _ _ E). auto.
  - rewrite (SetVolume_in_range _ _ E).
    destruct (hWaveOut s); [destruct (to_dword _) |]; cbn; auto.
Qed.

Create HintDb untouched.

#[local] Hint Resolve untouched_ret untouched_throw untouched_get untouched_lift
  untouched_generateBuffer untouched_SetVolume untouched_when untouched_if
  untouched_bind : untouched.

#[local] Hint Extern 1 (untouched (modify _)) =>
  apply untouched_modify; intros; cbn; repeat split; reflexivity : untouched.










